(** * Multipart coordinator of the body parser (src/Multipart/index.ts)

    A shallow embedding of the [Multipart] class. The object is a record of
    its fields; its methods and the listeners that [process] installs on the
    decoder are computations in a state and exception monad over a world
    made of the object, the promises created so far, the suspended [async]
    frames of the part listener and the calls made to the outside. What the
    class does not decide arrives as events: the calls of its public
    methods, the notifications of the decoder (multiparty), the handlers
    calling their progress callback and settling, and the scheduler resuming
    a part listener. The size parser and the part tracker are parameters. *)

From Stdlib Require Import ZArith Ascii String Lia.
From stdpp Require Import gmap strings list pretty.

Local Open Scope string_scope.
Local Open Scope list_scope.
Local Open Scope Z_scope.

(** ** JavaScript values that cross the coordinator *)

(** An error object: the [Exception] of @poppinss/utils carries a status and
    a code next to the message, a plain [Error] or [TypeError] does not. *)
Record JsError := {
  name : string;
  message : string;
  status : option Z;
  code : option string;
}.

#[global] Instance JsError_eq_dec : EqDecision JsError.
Proof. solve_decision. Defined.

Definition Exception (msg : string) (st : Z) (cd : string) : JsError :=
  {| name := "Exception"; message := msg; status := Some st; code := Some cd |}.

Definition Error (msg : string) : JsError :=
  {| name := "Error"; message := msg; status := None; code := None |}.

Definition TypeError (msg : string) : JsError :=
  {| name := "TypeError"; message := msg; status := None; code := None |}.

(** The value of a field as the 'field' listener receives it ([value: any]).
    Only the shapes whose [.length] access matters are kept: a string has a
    length, on [undefined] and [null] the property access throws. *)
Inductive JsValue :=
| JsString (s : string)
| JsUndefined
| JsNull.

(** A chunk handed to the progress callback. *)
Definition Chunk := list Byte.byte.

(** [MultipartStream]: the readable part with the decoder's extra data. *)
Record MultipartStream := {
  part_name : string;
  filename : string;
}.

(** [limit: string | number] *)
Inductive SizeSpec :=
| SizeNumber (n : Z)
| SizeString (s : string).

(** The configuration [process] recognises; an absent key is [None]. *)
Record Config := {
  maxFields : option Z;
  limit : option SizeSpec;
}.

(** [Object.assign(target, source)]: keys present in the source win; an
    [undefined] source copies nothing. *)
Definition assign (target : Config) (source : option Config) : Config :=
  match source with
  | None => target
  | Some src =>
      {| maxFields := match maxFields src with Some n => Some n | None => maxFields target end;
         limit := match limit src with Some l => Some l | None => limit target end |}
  end.

(** State of a promise; [resolve]/[reject] act on a pending promise only. *)
Inductive PromiseState :=
| Pending
| Resolved
| Rejected (e : JsError).

#[global] Instance PromiseState_eq_dec : EqDecision PromiseState.
Proof. solve_decision. Defined.

Definition settle (p : nat) (v : PromiseState) (ps : list PromiseState) : list PromiseState :=
  match ps !! p with
  | Some Pending => <[p := v]> ps
  | _ => ps
  end.

(** ** getHandlerName: [name.replace(/\[\d*\]/, '')] *)

Definition isDigit (c : ascii) : bool :=
  ((48 <=? nat_of_ascii c) && (nat_of_ascii c <=? 57))%nat.

(** After an opening bracket: [\d*] then the closing bracket; the rest of the
    string after the match is returned. *)
Fixpoint closeIndex (s : string) : option string :=
  match s with
  | EmptyString => None
  | String c rest =>
      if Ascii.eqb c "]" then Some rest
      else if isDigit c then closeIndex rest
      else None
  end.

(** The regular expression has no [g] flag: the leftmost match is removed
    and the remainder of the name is kept as it is. *)
Fixpoint getHandlerName (s : string) : string :=
  match s with
  | EmptyString => EmptyString
  | String c rest =>
      if Ascii.eqb c "[" then
        match closeIndex rest with
        | Some tail => tail
        | None => String c (getHandlerName rest)
        end
      else String c (getHandlerName rest)
  end.

(** The same normalisation as the specification words it: a trailing
    array-index suffix, when the name ends with one, is cut off. *)
Fixpoint stripTrailingIndex (s : string) : string :=
  match s with
  | EmptyString => EmptyString
  | String c rest =>
      if Ascii.eqb c "[" && match closeIndex rest with
                            | Some EmptyString => true
                            | _ => false
                            end
      then EmptyString
      else String c (stripTrailingIndex rest)
  end.

(** Every character of the string is a decimal digit. *)
Fixpoint digits (s : string) : bool :=
  match s with
  | EmptyString => true
  | String c rest => isDigit c && digits rest
  end.

(** [name] splits as [pre ++ "[" ++ ds ++ "]" ++ post] around an index
    expression. *)
Definition IndexExprAt (s pre ds post : string) : Prop :=
  s = pre +:+ "[" +:+ ds +:+ "]" +:+ post ∧ digits ds = true.

(** ** FormFields *)

(** Modelled from the spec: the [FormFields] class (src/FormFields) is not
    part of the sources at hand. [add] appends the value to the ordered
    sequence stored under the key, creating the sequence if absent; [get]
    returns the scalar for a key with exactly one value and the ordered
    sequence otherwise; keys keep their first-insertion order. *)
Module FormFields.
Section WithValue.
Context {V : Type}.

Definition t : Type := list (string * list V).

Definition empty : t := [].

Fixpoint add (key : string) (value : V) (m : t) : t :=
  match m with
  | [] => [(key, [value])]
  | (k, vs) :: rest =>
      if String.eqb k key then (k, vs ++ [value]) :: rest
      else (k, vs) :: add key value rest
  end.

Fixpoint values (key : string) (m : t) : list V :=
  match m with
  | [] => []
  | (k, vs) :: rest => if String.eqb k key then vs else values key rest
  end.

Inductive entry :=
| Scalar (v : V)
| Sequence (vs : list V).

Definition get (m : t) : list (string * entry) :=
  map (λ kv, (kv.1, match kv.2 with
                    | [v] => Scalar v
                    | vs => Sequence vs
                    end)) m.
End WithValue.
Arguments t : clear implicits.
Arguments entry : clear implicits.
End FormFields.

(** ** Collaborators outside the class *)

(** The size-string parser ([bytes] of npm): [None] is the [null] it returns
    for a string it cannot parse. *)
Class BytesParser := bytes : string → option Z.

(** The part progress tracker ([PartHandler], src/Multipart/PartHandler) and
    the types that travel through it, at the interface [handlePart] uses. The
    TypeScript object is mutated in place; here each report returns the
    tracker's next state. *)
Class PartHandlerApi := {
  Options : Type;
  Response : Type;
  File : Type;
  PartHandler : Type;
  newPartHandler : MultipartStream → Options → PartHandler;
  reportProgress : Chunk → nat → PartHandler → PartHandler;
  reportSuccess : Response → PartHandler → PartHandler;
  reportError : JsError → PartHandler → PartHandler;
  getFile : PartHandler → option File;
  fieldName : File → string;
}.

(** A caller-supplied handler function is opaque to the coordinator; a tag
    tells two of them apart. *)
Definition PartHandlerContract := nat.

(** What the awaited handler call comes back with: a value ([None] when it
    is falsy, as [undefined]) or a thrown error / rejection. *)
Inductive HandlerOutcome `{PartHandlerApi} :=
| Returned (response : option Response)
| Threw (error : JsError).

Section Coordinator.
Context `{BytesParser} `{PartHandlerApi}.

(** ** The object and the world around it *)

Record Binding := {
  handler : PartHandlerContract;
  options : Options;
}.

(** The multiparty form: its [maxFields] option, its [flushing] counter
    (the backlog [isClosed] reads) and [outer], the promise whose [resolve]
    and [reject] the listeners installed by [process] close over. *)
Record Form := {
  form_maxFields : option Z;
  flushing : Z;
  outer : nat;
}.

(** The request: [__raw_files] and the body set by [setInitialBody]. *)
Record Request := {
  raw_files : option (list (string * FormFields.entry File));
  initialBody : option (list (string * FormFields.entry string));
}.

Record Multipart := {
  handlers : gmap string Binding;
  fields : FormFields.t string;
  files : FormFields.t File;
  pendingHandlers : Z;
  form : option Form;
  upperLimit : option Z;
  processedBytes : Z;
  consumed : bool;
  request : Request;
  config : Config;
}.

(** Where a part's two [async] frames stand: [handlePart] suspended on the
    handler call, the part listener suspended on [handlePart] whose promise
    is already settled, or both finished. *)
Inductive Phase :=
| AwaitHandler
| AwaitHandlePart
| Finished.

(** One 'part' notification: the part, the tracker created for it (none
    when [handlePart] returned early) and the phase. The progress callback
    closes over the part and the tracker. *)
Record Task := {
  task_part : MultipartStream;
  partHandler : option PartHandler;
  phase : Phase;
}.

(** Calls that leave the class, in the order they are made. A part is taken
    to have an 'error' listener (the handler reading it installs one), so
    that [part.emit('error', error)] returns; an exception nobody catches
    is noted as [Uncaught]. *)
Inductive Action :=
| PartResume (part : MultipartStream)
| PartEmitError (part : MultipartStream) (error : JsError)
| HandlerCall (b : Binding) (part : MultipartStream) (task : nat)
| SetInitialBody (body : list (string * FormFields.entry string))
| FormParse
| Uncaught (error : JsError).

Record World := {
  self : Multipart;
  promises : list PromiseState;
  tasks : list Task;
  log : list Action;
}.

(** *** Field updates *)

Definition set_handlers (v : gmap string Binding) (m : Multipart) : Multipart :=
  {| handlers := v; fields := fields m; files := files m;
     pendingHandlers := pendingHandlers m; form := form m;
     upperLimit := upperLimit m; processedBytes := processedBytes m;
     consumed := consumed m; request := request m; config := config m |}.

Definition set_fields (v : FormFields.t string) (m : Multipart) : Multipart :=
  {| handlers := handlers m; fields := v; files := files m;
     pendingHandlers := pendingHandlers m; form := form m;
     upperLimit := upperLimit m; processedBytes := processedBytes m;
     consumed := consumed m; request := request m; config := config m |}.

Definition set_files (v : FormFields.t File) (m : Multipart) : Multipart :=
  {| handlers := handlers m; fields := fields m; files := v;
     pendingHandlers := pendingHandlers m; form := form m;
     upperLimit := upperLimit m; processedBytes := processedBytes m;
     consumed := consumed m; request := request m; config := config m |}.

Definition set_pendingHandlers (v : Z) (m : Multipart) : Multipart :=
  {| handlers := handlers m; fields := fields m; files := files m;
     pendingHandlers := v; form := form m;
     upperLimit := upperLimit m; processedBytes := processedBytes m;
     consumed := consumed m; request := request m; config := config m |}.

Definition set_form (v : option Form) (m : Multipart) : Multipart :=
  {| handlers := handlers m; fields := fields m; files := files m;
     pendingHandlers := pendingHandlers m; form := v;
     upperLimit := upperLimit m; processedBytes := processedBytes m;
     consumed := consumed m; request := request m; config := config m |}.

Definition set_upperLimit (v : option Z) (m : Multipart) : Multipart :=
  {| handlers := handlers m; fields := fields m; files := files m;
     pendingHandlers := pendingHandlers m; form := form m;
     upperLimit := v; processedBytes := processedBytes m;
     consumed := consumed m; request := request m; config := config m |}.

Definition set_processedBytes (v : Z) (m : Multipart) : Multipart :=
  {| handlers := handlers m; fields := fields m; files := files m;
     pendingHandlers := pendingHandlers m; form := form m;
     upperLimit := upperLimit m; processedBytes := v;
     consumed := consumed m; request := request m; config := config m |}.

Definition set_consumed (v : bool) (m : Multipart) : Multipart :=
  {| handlers := handlers m; fields := fields m; files := files m;
     pendingHandlers := pendingHandlers m; form := form m;
     upperLimit := upperLimit m; processedBytes := processedBytes m;
     consumed := v; request := request m; config := config m |}.

Definition set_request (v : Request) (m : Multipart) : Multipart :=
  {| handlers := handlers m; fields := fields m; files := files m;
     pendingHandlers := pendingHandlers m; form := form m;
     upperLimit := upperLimit m; processedBytes := processedBytes m;
     consumed := consumed m; request := v; config := config m |}.

Definition set_config (v : Config) (m : Multipart) : Multipart :=
  {| handlers := handlers m; fields := fields m; files := files m;
     pendingHandlers := pendingHandlers m; form := form m;
     upperLimit := upperLimit m; processedBytes := processedBytes m;
     consumed := consumed m; request := request m; config := v |}.

Definition set_flushing (n : Z) (f : Form) : Form :=
  {| form_maxFields := form_maxFields f; flushing := n; outer := outer f |}.

(** ** A state and exception monad over the world

    A computation returns a value or throws, and keeps the mutations made
    before the throw. *)
Definition M (A : Type) : Type := World → (JsError + A) * World.

#[local] Instance M_ret : MRet M := λ A a w, (inr a, w).

#[local] Instance M_bind : MBind M := λ A B k m w,
  match m w with
  | (inr a, w') => k a w'
  | (inl e, w') => (inl e, w')
  end.

Definition throw {A} (e : JsError) : M A := λ w, (inl e, w).

Definition tryCatch {A} (body : M A) (catch : JsError → M A) : M A := λ w,
  match body w with
  | (inl e, w') => catch e w'
  | r => r
  end.

Definition gets {A} (f : Multipart → A) : M A := λ w, (inr (f (self w)), w).

Definition modify (f : Multipart → Multipart) : M unit := λ w,
  (inr tt, {| self := f (self w); promises := promises w; tasks := tasks w; log := log w |}).

Definition emit (a : Action) : M unit := λ w,
  (inr tt, {| self := self w; promises := promises w; tasks := tasks w; log := log w ++ [a] |}).

Definition newPromise : M nat := λ w,
  (inr (length (promises w)),
   {| self := self w; promises := promises w ++ [Pending]; tasks := tasks w; log := log w |}).

Definition settlePromise (p : nat) (v : PromiseState) : M unit := λ w,
  (inr tt, {| self := self w; promises := settle p v (promises w); tasks := tasks w; log := log w |}).

Definition resolve (p : nat) : M unit := settlePromise p Resolved.

Definition reject (p : nat) (e : JsError) : M unit := settlePromise p (Rejected e).

Definition spawn (t : Task) : M nat := λ w,
  (inr (length (tasks w)),
   {| self := self w; promises := promises w; tasks := tasks w ++ [t]; log := log w |}).

Definition updateTask (task : nat) (f : Task → Task) : M unit := λ w,
  (inr tt, {| self := self w; promises := promises w; tasks := alter f task (tasks w); log := log w |}).

(** Reading [this.form] for a member access: a [TypeError] while the form is
    still [undefined]. *)
Definition getForm : M Form :=
  f ← gets form;
  match f with
  | Some f => mret f
  | None => throw (TypeError "Cannot read properties of undefined")
  end.

(** ** The class *)

(** [new Multipart(request, config)] *)
Definition construct (cfg : Config) : World :=
  {| self := {| handlers := ∅; fields := FormFields.empty; files := FormFields.empty;
                pendingHandlers := 0; form := None; upperLimit := None;
                processedBytes := 0; consumed := false;
                request := {| raw_files := None; initialBody := None |};
                config := cfg |};
     promises := []; tasks := []; log := [] |}.

(** [this.form['flushing'] <= 0 && this.pendingHandlers <= 0] *)
Definition isClosed : M bool :=
  f ← getForm;
  pending ← gets pendingHandlers;
  mret ((flushing f <=? 0) && (pending <=? 0)).

(** [!this.upperLimit]: [undefined], [null] and [0] are falsy. *)
Definition unlimited (upper : option Z) : bool :=
  match upper with
  | None => true
  | Some n => n =? 0
  end.

(** The early return on [!this.upperLimit] covers [undefined] and [null]
    ([None]) and [0]; the result is the exception or [undefined]. *)
Definition validateProcessedBytes (chunkLength : Z) : M (option JsError) :=
  upper ← gets upperLimit;
  match upper with
  | Some limit =>
      if limit =? 0 then mret None
      else
        modify (λ m, set_processedBytes (processedBytes m + chunkLength) m) ;;
        processed ← gets processedBytes;
        if processed >? limit
        then mret (Some (Exception "request entity too large" 413 "E_REQUEST_ENTITY_TOO_LARGE"))
        else mret None
  | None => mret None
  end.

(** [form.emit('error', error)] runs the 'error' listener installed by
    [process]. *)
Definition onError (f : Form) (error : JsError) : M unit :=
  if String.eqb (message error) "maxFields 1 exceeded."
  then reject (outer f) (Exception "Max fields limit exceeded" 413 "E_REQUEST_ENTITY_TOO_LARGE")
  else reject (outer f) error.

Definition abort (error : JsError) : M unit :=
  f ← getForm;
  onError f error.

(** [this.handlers[name] || this.handlers['*']], the object read as a map of
    its own keys. *)
Definition resolveHandler (hs : gmap string Binding) (partName : string) : option Binding :=
  match hs !! getHandlerName partName with
  | Some b => Some b
  | None => hs !! "*"
  end.

(** [handlePart] up to its [await]: [None] when it returned early, the task
    now suspended on the handler call otherwise. *)
Definition handlePart (part : MultipartStream) : M (option nat) :=
  if String.eqb (part_name part) "" then
    emit (PartResume part) ;; mret None
  else
    hs ← gets handlers;
    match resolveHandler hs (part_name part) with
    | None => emit (PartResume part) ;; mret None
    | Some b =>
        modify (λ m, set_pendingHandlers (pendingHandlers m + 1) m) ;;
        task ← spawn {| task_part := part;
                        partHandler := Some (newPartHandler part (options b));
                        phase := AwaitHandler |};
        emit (HandlerCall b part task) ;;
        mret (Some task)
    end.

(** The progress callback passed to the handler. *)
Definition progressCallback (task : nat) (part : MultipartStream) (line : Chunk) : M unit :=
  let lineLength := length line in
  error ← validateProcessedBytes (Z.of_nat lineLength);
  match error with
  | Some error => emit (PartEmitError part error) ;; abort error
  | None => mret tt
  end ;;
  updateTask task (λ t, {| task_part := task_part t;
                           partHandler := reportProgress line lineLength <$> partHandler t;
                           phase := phase t |}).

(** [handlePart] from the moment the awaited handler call settles. *)
Definition handlePartSettled (task : nat) (tracker : PartHandler)
    (outcome : HandlerOutcome) : M unit :=
  let tracker :=
    match outcome with
    | Returned (Some response) => reportSuccess response tracker
    | Returned None => tracker
    | Threw error => reportError error tracker
    end in
  updateTask task (λ t, {| task_part := task_part t;
                           partHandler := Some tracker;
                           phase := AwaitHandlePart |}) ;;
  match getFile tracker with
  | Some file => modify (λ m, set_files (FormFields.add (fieldName file) file (files m)) m)
  | None => mret tt
  end ;;
  modify (λ m, set_pendingHandlers (pendingHandlers m - 1) m).

(** [value.length] *)
Definition lengthOf (value : JsValue) : M (string * Z) :=
  match value with
  | JsString s => mret (s, Z.of_nat (String.length s))
  | JsUndefined => throw (TypeError "Cannot read properties of undefined (reading 'length')")
  | JsNull => throw (TypeError "Cannot read properties of null (reading 'length')")
  end.

Definition handleField (key : string) (value : JsValue) : M unit :=
  if String.eqb key "" then mret tt
  else
    sv ← lengthOf value;
    error ← validateProcessedBytes sv.2;
    match error with
    | Some error => abort error
    | None => modify (λ m, set_fields (FormFields.add key sv.1 (fields m)) m)
    end.

Definition sizeOf (l : option SizeSpec) : option Z :=
  match l with
  | Some (SizeString s) => bytes s
  | Some (SizeNumber n) => Some n
  | None => None
  end.

Definition processConfig (cfg : option Config) : M unit :=
  modify (λ m, set_config (assign (config m) cfg) m) ;;
  modify (λ m, set_upperLimit (sizeOf (limit (config m))) m).

Definition cleanup : M unit :=
  modify (λ m, set_request {| raw_files := Some (FormFields.get (files m));
                              initialBody := initialBody (request m) |} m) ;;
  body ← gets (λ m, FormFields.get (fields m));
  modify (λ m, set_request {| raw_files := raw_files (request m);
                              initialBody := Some body |} m) ;;
  emit (SetInitialBody body).

Definition onFile (partName : string) (opts : Options) (h : PartHandlerContract) : M unit :=
  modify (λ m, set_handlers (<[partName := {| handler := h; options := opts |}]> (handlers m)) m).

(** The executor of the promise [process] returns; the listeners it installs
    are [onError], [onPart], [onPartResumed], [onField] and [onClose]. *)
Definition process (cfg : option Config) : M nat :=
  p ← newPromise;
  used ← gets consumed;
  if used : bool then
    reject p (Exception "multipart stream has already been consumed" 500 "E_RUNTIME_EXCEPTION") ;;
    mret p
  else
    modify (set_consumed true) ;;
    processConfig cfg ;;
    conf ← gets config;
    modify (set_form (Some {| form_maxFields := maxFields conf; flushing := 0; outer := p |})) ;;
    emit FormParse ;;
    mret p.

(** The 'part' listener up to [await this.handlePart(part)]. *)
Definition onPart (part : MultipartStream) : M unit :=
  r ← handlePart part;
  match r with
  | Some _ => mret tt
  | None =>
      spawn {| task_part := part; partHandler := None; phase := AwaitHandlePart |} ;;
      mret tt
  end.

(** The 'part' listener after the [await]; [resolve] is the one of the
    promise the listener was created in, the form's [outer]. *)
Definition onPartResumed (task : nat) : M unit :=
  updateTask task (λ t, {| task_part := task_part t;
                           partHandler := partHandler t;
                           phase := Finished |}) ;;
  closed ← isClosed;
  if closed : bool then
    cleanup ;;
    f ← getForm;
    resolve (outer f)
  else mret tt.

Definition onField (key : string) (value : JsValue) : M unit :=
  tryCatch (handleField key value) (λ error, abort error).

Definition onClose : M unit :=
  closed ← isClosed;
  if closed : bool then
    cleanup ;;
    f ← getForm;
    resolve (outer f)
  else mret tt.

(** ** Events

    Calls of the public methods, notifications of the decoder, and what the
    handler functions do: call their progress callback and settle. The
    scheduler resumes a suspended part listener as an event of its own. *)
Inductive Event :=
| CallOnFile (partName : string) (opts : Options) (h : PartHandlerContract)
| CallProcess (cfg : option Config)
| CallAbort (error : JsError)
| DecoderPart (part : MultipartStream)
| DecoderField (key : string) (value : JsValue)
| DecoderError (error : JsError)
| DecoderClose
| DecoderFlushing (backlog : Z)
| HandlerProgress (task : nat) (line : Chunk)
| HandlerSettles (task : nat) (outcome : HandlerOutcome)
| ListenerResumes (task : nat).

(** Run a computation to its end; an exception nobody catches is noted. *)
Definition exec {A} (m : M A) (w : World) : World :=
  match m w with
  | (inr _, w') => w'
  | (inl e, w') =>
      {| self := self w'; promises := promises w'; tasks := tasks w'; log := log w' ++ [Uncaught e] |}
  end.

(** The decoder notifies only once [process] created it and installed the
    listeners; a handler event concerns a task in the matching phase. *)
Definition step (ev : Event) (w : World) : World :=
  match ev with
  | CallOnFile partName opts h => exec (onFile partName opts h) w
  | CallProcess cfg => exec (process cfg) w
  | CallAbort error => exec (abort error) w
  | DecoderPart part =>
      match form (self w) with
      | Some _ => exec (onPart part) w
      | None => w
      end
  | DecoderField key value =>
      match form (self w) with
      | Some _ => exec (onField key value) w
      | None => w
      end
  | DecoderError error =>
      match form (self w) with
      | Some f => exec (onError f error) w
      | None => w
      end
  | DecoderClose =>
      match form (self w) with
      | Some _ => exec onClose w
      | None => w
      end
  | DecoderFlushing backlog =>
      match form (self w) with
      | Some f => exec (modify (set_form (Some (set_flushing backlog f)))) w
      | None => w
      end
  | HandlerProgress task line =>
      match tasks w !! task with
      | Some {| task_part := part; partHandler := Some _ |} => exec (progressCallback task part line) w
      | _ => w
      end
  | HandlerSettles task outcome =>
      match tasks w !! task with
      | Some {| partHandler := Some tracker; phase := AwaitHandler |} =>
          exec (handlePartSettled task tracker outcome) w
      | _ => w
      end
  | ListenerResumes task =>
      match tasks w !! task with
      | Some {| phase := AwaitHandlePart |} => exec (onPartResumed task) w
      | _ => w
      end
  end.

Definition run (evs : list Event) (w : World) : World :=
  foldl (λ w ev, step ev w) w evs.

(** ** Observations *)

Definition isCleanup (a : Action) : bool :=
  match a with
  | SetInitialBody _ => true
  | _ => false
  end.

(** How many times [cleanup] published to the request. *)
Definition cleanups (w : World) : nat :=
  length (List.filter isCleanup (log w)).

End Coordinator.

Arguments Returned {_} response.
Arguments Threw {_} error.

(** ** Sample collaborators, to run the model on concrete inputs *)

Fixpoint decimalValue (acc : Z) (s : string) : option Z :=
  match s with
  | EmptyString => Some acc
  | String c rest =>
      if isDigit c then decimalValue (10 * acc + (Z.of_nat (nat_of_ascii c) - 48)) rest
      else None
  end.

(** A size parser that reads a plain decimal byte count and returns [null]
    for anything else. *)
Definition decimalBytes (s : string) : option Z :=
  match s with
  | EmptyString => None
  | _ => decimalValue 0 s
  end.

(** [Partial<FileValidationOptions>] of the typings. *)
Record FileValidationOptions := {
  opt_size : option SizeSpec;
  opt_types : list string;
  opt_extnames : list string;
}.

Inductive FileStatus :=
| StatusPending
| StatusMoved
| StatusError.

(** The file record of the typings ([MultipartFileContract]), reduced to
    the members the tracker below fills in. *)
Record MultipartFile := {
  file_fieldName : string;
  file_clientName : string;
  file_size : Z;
  file_status : FileStatus;
  file_errors : list JsError;
}.

Record Tracker := {
  tracked : MultipartStream;
  received : Z;
  reported : bool;
  outcome_status : FileStatus;
  outcome_errors : list JsError;
}.

(** Modelled from the spec: the [PartHandler] class
    (src/Multipart/PartHandler) is not part of the sources at hand. It wraps
    one streamed part, accumulates the chunks reported to it and produces a
    success record, an error record, or nothing when nothing was reported. *)
Definition specTracker : PartHandlerApi :=
  {| Options := FileValidationOptions;
     Response := string;
     File := MultipartFile;
     PartHandler := Tracker;
     newPartHandler := λ part _,
       {| tracked := part; received := 0; reported := false;
          outcome_status := StatusPending; outcome_errors := [] |};
     reportProgress := λ _ n t,
       {| tracked := tracked t; received := received t + Z.of_nat n; reported := true;
          outcome_status := outcome_status t; outcome_errors := outcome_errors t |};
     reportSuccess := λ _ t,
       {| tracked := tracked t; received := received t; reported := true;
          outcome_status := StatusMoved; outcome_errors := outcome_errors t |};
     reportError := λ e t,
       {| tracked := tracked t; received := received t; reported := true;
          outcome_status := StatusError; outcome_errors := outcome_errors t ++ [e] |};
     getFile := λ t,
       if reported t
       then Some {| file_fieldName := part_name (tracked t);
                    file_clientName := filename (tracked t);
                    file_size := received t;
                    file_status := outcome_status t;
                    file_errors := outcome_errors t |}
       else None;
     fieldName := file_fieldName |}.

#[global] Existing Instance specTracker.

#[global] Instance sampleBytes : BytesParser := decimalBytes.

(** The decoder's own error for the too-many-fields condition: multiparty
    words it with the configured cap, and the literal compared in the 'error'
    listener of [process] is this message for a cap of one. The listener
    looks at the message only, so nothing else of the error is kept here. *)
Definition tooManyFields (cap : Z) : JsError :=
  Error ("maxFields " +:+ pretty cap +:+ " exceeded.").

Definition noOptions : FileValidationOptions :=
  {| opt_size := None; opt_types := []; opt_extnames := [] |}.

Definition noConfig : Config := {| maxFields := None; limit := None |}.

Definition filePart (n : string) : MultipartStream :=
  {| part_name := n; filename := n +:+ ".bin" |}.

Definition chunkOf (n : nat) : Chunk := repeat Byte.x00 n.

(** A projection of the world that forgets the configured ceiling. *)
Definition forgetLimit `{PartHandlerApi} (w : World) : World :=
  {| self := set_upperLimit None
               (set_config {| maxFields := maxFields (config (self w)); limit := None |} (self w));
     promises := promises w; tasks := tasks w; log := log w |}.

Definition isCallProcess `{PartHandlerApi} (ev : Event) : bool :=
  match ev with
  | CallProcess _ => true
  | _ => false
  end.

(** The bytes an event hands to the byte-limit guard in a given world: the
    length of a chunk given to a live progress callback, the length of the
    value of a field with a non-empty key. *)
Definition guardedBytes `{PartHandlerApi} (ev : Event) (w : World) : Z :=
  match ev with
  | HandlerProgress task line =>
      match tasks w !! task with
      | Some {| partHandler := Some _ |} => Z.of_nat (length line)
      | _ => 0
      end
  | DecoderField key (JsString s) =>
      match form (self w) with
      | Some _ => if String.eqb key "" then 0 else Z.of_nat (String.length s)
      | None => 0
      end
  | _ => 0
  end.

(** The bytes handed to the guard along a run. *)
Fixpoint totalGuarded `{BytesParser} `{PartHandlerApi} (evs : list Event) (w : World) : Z :=
  match evs with
  | [] => 0
  | ev :: rest => guardedBytes ev w + totalGuarded rest (step ev w)
  end.

(** The completion predicate, read off the world. *)
Definition completed `{PartHandlerApi} (w : World) : bool :=
  match form (self w) with
  | Some f => (flushing f <=? 0) && (pendingHandlers (self w) <=? 0)
  | None => false
  end.

(** What [cleanup] publishes. *)
Definition published `{PartHandlerApi} (m : Multipart) : Request :=
  {| raw_files := Some (FormFields.get (files m));
     initialBody := Some (FormFields.get (fields m)) |}.

(** The verdict of the byte-limit guard for an increment. *)
Definition verdict `{PartHandlerApi} (m : Multipart) (increment : Z) : option JsError :=
  match upperLimit m with
  | Some limit =>
      if limit =? 0 then None
      else if processedBytes m + increment >? limit
           then Some (Exception "request entity too large" 413 "E_REQUEST_ENTITY_TOO_LARGE")
           else None
  | None => None
  end.

(** The counter after the guard saw an increment. *)
Definition counted `{PartHandlerApi} (m : Multipart) (increment : Z) : Z :=
  if unlimited (upperLimit m) then processedBytes m else processedBytes m + increment.

(** The two places where the completion predicate is evaluated: the close
    notification and the resumption of a part listener. *)
Definition isTrigger `{PartHandlerApi} (w : World) (ev : Event) : bool :=
  match ev with
  | DecoderClose => true
  | ListenerResumes task =>
      match tasks w !! task with
      | Some {| phase := AwaitHandlePart |} => true
      | _ => false
      end
  | _ => false
  end.

Definition alreadyConsumed : JsError :=
  Exception "multipart stream has already been consumed" 500 "E_RUNTIME_EXCEPTION".

Definition entityTooLarge : JsError :=
  Exception "request entity too large" 413 "E_REQUEST_ENTITY_TOO_LARGE".

Definition maxFieldsExceeded : JsError :=
  Exception "Max fields limit exceeded" 413 "E_REQUEST_ENTITY_TOO_LARGE".

(** What the 'error' listener rejects with. *)
Definition surfaced (error : JsError) : JsError :=
  if String.eqb (message error) "maxFields 1 exceeded." then maxFieldsExceeded else error.


(** How often the triggers of a run find the completion predicate true. *)
Fixpoint satisfactions `{BytesParser} `{PartHandlerApi} (evs : list Event) (w : World) : nat :=
  match evs with
  | [] => 0
  | ev :: rest =>
      ((if isTrigger w ev && completed w then 1 else 0) + satisfactions rest (step ev w))%nat
  end.

(** Two worlds that differ at most in the promises numbered [n] and up. *)
Definition agree `{PartHandlerApi} (n : nat) (w w' : World) : Prop :=
  self w = self w' ∧ tasks w = tasks w' ∧ log w = log w'
  ∧ take n (promises w) = take n (promises w')
  ∧ (n ≤ length (promises w))%nat ∧ (n ≤ length (promises w'))%nat.

(** ** Sample runs *)

(** One wildcard handler, two parts whose streams end and whose decoder
    closes while both handlers are still busy; the two handlers then settle
    in the same turn, so both [handlePart] frames finish before either part
    listener resumes. *)
Definition settleTogether : list Event :=
  [ CallOnFile "*" noOptions 1%nat;
    CallProcess None;
    DecoderField "title" (JsString "report");
    DecoderFlushing 1; DecoderPart (filePart "a");
    DecoderFlushing 2; DecoderPart (filePart "b");
    HandlerProgress 0 (chunkOf 3); HandlerProgress 1 (chunkOf 4);
    DecoderFlushing 1; DecoderFlushing 0;
    DecoderClose;
    HandlerSettles 0 (Returned (Some "stored a"));
    HandlerSettles 1 (Returned (Some "stored b"));
    ListenerResumes 0;
    ListenerResumes 1 ].

(** One part whose listener resumes with nothing left to flush. *)
Definition resumedWhenFlushed : list Event :=
  [ CallOnFile "a" noOptions 1%nat;
    CallProcess None;
    DecoderFlushing 1; DecoderPart (filePart "a");
    HandlerProgress 0 (chunkOf 3);
    DecoderFlushing 0;
    HandlerSettles 0 (Returned (Some "stored a"));
    ListenerResumes 0 ].

(** A ceiling of ten bytes. *)
Definition tenBytes : Config := {| maxFields := None; limit := Some (SizeNumber 10) |}.

(** A part named [avatar] in the hands of its handler, under that ceiling. *)
Definition avatarInFlight : list Event :=
  [ CallOnFile "avatar" noOptions 1%nat;
    CallProcess (Some tenBytes);
    DecoderFlushing 1; DecoderPart (filePart "avatar");
    HandlerProgress 0 (chunkOf 6) ].

(** A cap of two fields, two fields, then the decoder's error for the
    third. *)
Definition thirdFieldOverCap : list Event :=
  [ CallProcess (Some {| maxFields := Some 2; limit := None |});
    DecoderField "a" (JsString "1");
    DecoderField "b" (JsString "2");
    DecoderError (tooManyFields 2) ].

(** The same with a cap of one. *)
Definition secondFieldOverCap : list Event :=
  [ CallProcess (Some {| maxFields := Some 1; limit := None |});
    DecoderField "a" (JsString "1");
    DecoderError (tooManyFields 1) ].

(** ** Further observations *)

Definition isAwaitHandler `{PartHandlerApi} (t : Task) : bool :=
  match phase t with
  | AwaitHandler => true
  | _ => false
  end.

(** The handler calls still awaited. *)
Definition awaiting `{PartHandlerApi} (ts : list Task) : nat :=
  length (List.filter isAwaitHandler ts).

Definition isHandlerCall `{PartHandlerApi} (a : Action) : bool :=
  match a with
  | HandlerCall _ _ _ => true
  | _ => false
  end.

Definition isPartResume `{PartHandlerApi} (a : Action) : bool :=
  match a with
  | PartResume _ => true
  | _ => false
  end.

Definition hasTracker `{PartHandlerApi} (t : Task) : bool :=
  match partHandler t with
  | Some _ => true
  | None => false
  end.

Definition isCallOnFile `{PartHandlerApi} (ev : Event) : bool :=
  match ev with
  | CallOnFile _ _ _ => true
  | _ => false
  end.

(** Events that carry no error of their own: neither a decoder error nor
    an [abort] call, nor a field whose value has no length. *)
Definition benign `{PartHandlerApi} (ev : Event) : bool :=
  match ev with
  | DecoderError _ | CallAbort _ => false
  | DecoderField key JsUndefined | DecoderField key JsNull => String.eqb key ""
  | _ => true
  end.

(** The name holds no opening bracket. *)
Fixpoint noBracket (s : string) : bool :=
  match s with
  | EmptyString => true
  | String c rest => negb (Ascii.eqb c "[") && noBracket rest
  end.

(** The run of [resumedWhenFlushed] up to the moment its part listener is
    about to resume. *)
Definition settledWhenFlushed : list Event :=
  [ CallOnFile "a" noOptions 1%nat;
    CallProcess None;
    DecoderFlushing 1; DecoderPart (filePart "a");
    HandlerProgress 0 (chunkOf 3);
    DecoderFlushing 0;
    HandlerSettles 0 (Returned (Some "stored a")) ].

(** The part [avatar] fully streamed, its handler still busy. *)
Definition avatarFlushed : list Event :=
  avatarInFlight ++ [DecoderFlushing 0].

(** The part [avatar] after a chunk that takes the counter to eleven. *)
Definition avatarOverLimit : list Event :=
  avatarInFlight ++ [HandlerProgress 0 (chunkOf 5)].


(** * Properties *)

(** ** The name normalisation *)

Lemma append_String c s t : String c s +:+ t = String c (s +:+ t).
Proof. reflexivity. Qed.

Lemma digit_not_close c : isDigit c = true → Ascii.eqb c "]" = false.
Proof.
  intros Hd. destruct (Ascii.eqb_spec c "]") as [-> | _]; [ | reflexivity].
  vm_compute in Hd. discriminate.
Qed.

Lemma closeIndex_digits ds post :
  digits ds = true → closeIndex (ds +:+ "]" +:+ post) = Some post.
Proof.
  induction ds as [ | c ds IH]; cbn [digits]; intros Hd.
  - reflexivity.
  - apply andb_prop in Hd as [Hc Hds]. rewrite (append_String c ds). cbn [closeIndex].
    rewrite (digit_not_close c Hc), Hc. auto.
Qed.

Lemma closeIndex_inv s tail :
  closeIndex s = Some tail → ∃ ds, digits ds = true ∧ s = ds +:+ "]" +:+ tail.
Proof.
  induction s as [ | c s IH]; cbn [closeIndex]; [discriminate | ].
  destruct (Ascii.eqb_spec c "]") as [-> | Hc].
  - intros [= ->]. exists EmptyString. split; reflexivity.
  - destruct (isDigit c) eqn:Hd; [ | discriminate].
    intros Hs. destruct (IH Hs) as (ds & Hds & ->).
    exists (String c ds). cbn [digits]. rewrite Hd, Hds. split; reflexivity.
Qed.

Lemma getHandlerName_leftmost s pre ds post :
  IndexExprAt s pre ds post →
  (∀ pre' ds' post', IndexExprAt s pre' ds' post' →
     (String.length pre ≤ String.length pre')%nat) →
  getHandlerName s = pre +:+ post.
Proof.
  revert s. induction pre as [ | c pre IH]; intros s [-> Hds] Hleft.
  - pose proof (closeIndex_digits ds post Hds) as Hclose.
    change ("" +:+ "[" +:+ ds +:+ "]" +:+ post)
      with (String "[" (ds +:+ "]" +:+ post)).
    cbn [getHandlerName Ascii.eqb Bool.eqb]. rewrite Hclose. reflexivity.
  - assert (IHrest : getHandlerName (pre +:+ "[" +:+ ds +:+ "]" +:+ post) = pre +:+ post).
    { apply IH; [split; [reflexivity | exact Hds] | ].
      intros pre' ds' post' [Heq Hds'].
      assert (Hl : (String.length (String c pre) ≤ String.length (String c pre'))%nat).
      { apply (Hleft (String c pre') ds' post'). split; [ | exact Hds'].
        rewrite (append_String c pre), (append_String c pre'). f_equal. exact Heq. }
      simpl in Hl. lia. }
    rewrite (append_String c pre). cbn [getHandlerName].
    destruct (Ascii.eqb c "[") eqn:Hc; [ | rewrite IHrest; reflexivity].
    destruct (closeIndex (pre +:+ "[" +:+ ds +:+ "]" +:+ post)) as [tail | ] eqn:Hclose;
      [ | rewrite IHrest; reflexivity].
    exfalso. apply Ascii.eqb_eq in Hc. subst c.
    destruct (closeIndex_inv _ _ Hclose) as (ds' & Hds' & Heq).
    assert (Hl : (String.length (String "[" pre) ≤ String.length EmptyString)%nat).
    { apply (Hleft EmptyString ds' tail). split; [ | exact Hds'].
      rewrite (append_String "[" pre). change ("" +:+ "[" +:+ ds' +:+ "]" +:+ tail)
        with (String "[" (ds' +:+ "]" +:+ tail)).
      f_equal. exact Heq. }
    simpl in Hl. lia.
Qed.

Lemma getHandlerName_plain s :
  (∀ pre ds post, ¬ IndexExprAt s pre ds post) → getHandlerName s = s.
Proof.
  induction s as [ | c s IH]; intros Hno; [reflexivity | ].
  assert (IHrest : getHandlerName s = s).
  { apply IH. intros pre ds post [Heq Hds].
    apply (Hno (String c pre) ds post). split; [ | exact Hds].
    rewrite (append_String c pre). f_equal. exact Heq. }
  cbn [getHandlerName].
  destruct (Ascii.eqb c "[") eqn:Hc; [ | rewrite IHrest; reflexivity].
  destruct (closeIndex s) as [tail | ] eqn:Hclose; [ | rewrite IHrest; reflexivity].
  exfalso. apply Ascii.eqb_eq in Hc. subst c.
  destruct (closeIndex_inv _ _ Hclose) as (ds & Hds & Heq).
  apply (Hno EmptyString ds tail). split; [ | exact Hds].
  change ("" +:+ "[" +:+ ds +:+ "]" +:+ tail) with (String "[" (ds +:+ "]" +:+ tail)).
  f_equal. exact Heq.
Qed.

(** ** The accumulator *)

Lemma values_add {V} key (v : V) m :
  FormFields.values key (FormFields.add key v m) = FormFields.values key m ++ [v].
Proof.
  induction m as [ | [k vs] m IH]; simpl.
  - rewrite String.eqb_refl. reflexivity.
  - destruct (String.eqb k key) eqn:Hk; simpl; rewrite Hk; [reflexivity | exact IH].
Qed.

Lemma values_add_other {V} key other (v : V) m :
  other ≠ key →
  FormFields.values other (FormFields.add key v m) = FormFields.values other m.
Proof.
  intros Hne. induction m as [ | [k vs] m IH]; simpl.
  - destruct (String.eqb_spec key other); [congruence | reflexivity].
  - destruct (String.eqb_spec k key) as [-> | Hk]; simpl.
    + destruct (String.eqb_spec key other); [congruence | reflexivity].
    + rewrite IH. reflexivity.
Qed.

Lemma keys_add_known {V} key (v : V) (m : FormFields.t V) :
  key ∈ m.*1 → (FormFields.add key v m).*1 = m.*1.
Proof.
  induction m as [ | [k vs] m IH]; cbn [FormFields.add]; rewrite ?fmap_cons; cbn [fst].
  - intros Hin. apply elem_of_nil in Hin. contradiction.
  - intros Hin. destruct (String.eqb_spec k key) as [-> | Hk]; [reflexivity | ].
    rewrite fmap_cons. cbn [fst]. f_equal. apply IH.
    apply elem_of_cons in Hin as [Heq | Hin]; [congruence | exact Hin].
Qed.

Lemma keys_add_fresh {V} key (v : V) (m : FormFields.t V) :
  key ∉ m.*1 → (FormFields.add key v m).*1 = m.*1 ++ [key].
Proof.
  induction m as [ | [k vs] m IH]; cbn [FormFields.add]; rewrite ?fmap_cons; cbn [fst].
  - reflexivity.
  - intros Hin. apply not_elem_of_cons in Hin as [Hne Hin].
    destruct (String.eqb_spec k key) as [-> | Hk]; [congruence | ].
    rewrite fmap_cons. cbn [fst]. simpl. f_equal. apply IH, Hin.
Qed.

(** ** The coordinator *)

Section Properties.
Context `{BytesParser} `{PartHandlerApi}.

(** Unfold the methods down to functions on worlds. *)
Ltac unfold_m :=
  unfold exec, onFile, process, onPart, onField, onClose, onPartResumed,
    progressCallback, handlePartSettled in *;
  unfold handlePart, handleField, processConfig, cleanup, isClosed, abort in *;
  unfold onError, validateProcessedBytes, lengthOf, getForm in *;
  unfold tryCatch, resolve, reject, settlePromise, spawn, updateTask, emit,
    modify, gets, throw, newPromise, mbind, M_bind, mret, M_ret in *.

(** The same, keeping the guard folded for [validateProcessedBytes_spec]. *)
Ltac unfold_listeners :=
  unfold exec, onFile, process, onPart, onField, onClose, onPartResumed,
    progressCallback, handlePartSettled in *;
  unfold handlePart, handleField, processConfig, cleanup, isClosed, abort in *;
  unfold onError, lengthOf, getForm in *;
  unfold tryCatch, resolve, reject, settlePromise, spawn, updateTask, emit,
    modify, gets, throw, newPromise, mbind, M_bind, mret, M_ret in *.

(** Case analysis on the scrutinee of every [match], innermost first. *)
Ltac innermost x :=
  lazymatch x with
  | context [match _ with _ => _ end] => fail
  | _ => idtac
  end.

Ltac case_all :=
  repeat match goal with
  | |- context [match ?x with _ => _ end] =>
      innermost x;
      first [is_var x; destruct x | destruct x eqn:?]; simpl in *; try congruence
  end.

Ltac by_cases ev :=
  destruct ev; unfold step; unfold_m; simpl in *; case_all;
  try reflexivity; try assumption; try congruence; try lia.

(** *** The decoder and the consumed flag *)

Lemma step_form_none ev w :
  form (self w) = None → isCallProcess ev = false → form (self (step ev w)) = None.
Proof. intros Hf Hev. by_cases ev. Qed.

Lemma step_consumed ev w :
  consumed (self w) = true → consumed (self (step ev w)) = true.
Proof. intros Hc. by_cases ev. Qed.

Lemma step_consumed_by_process ev w :
  consumed (self w) = false → consumed (self (step ev w)) = true → isCallProcess ev = true.
Proof. intros Hc. by_cases ev. Qed.

Lemma step_form_some ev w f :
  consumed (self w) = true → form (self w) = Some f →
  ∃ f', form (self (step ev w)) = Some f' ∧ outer f' = outer f
        ∧ form_maxFields f' = form_maxFields f.
Proof.
  intros Hc Hf.
  destruct ev; unfold step; unfold_m; simpl in *; rewrite ?Hc, ?Hf; simpl;
    case_all; simplify_eq; simpl; eauto.
Qed.

Lemma step_upperLimit ev w :
  consumed (self w) = true → upperLimit (self (step ev w)) = upperLimit (self w).
Proof. intros Hc. by_cases ev. Qed.

Lemma run_consumed evs w :
  consumed (self w) = true → consumed (self (run evs w)) = true.
Proof.
  revert w. induction evs as [ | ev evs IH]; intros w Hc; [exact Hc | ].
  apply IH, step_consumed, Hc.
Qed.

Lemma run_upperLimit evs w :
  consumed (self w) = true → upperLimit (self (run evs w)) = upperLimit (self w).
Proof.
  revert w. induction evs as [ | ev evs IH]; intros w Hc; [reflexivity | ].
  simpl. rewrite IH by (apply step_consumed, Hc). apply step_upperLimit, Hc.
Qed.

Lemma run_form_none evs w :
  form (self w) = None → forallb (λ ev, negb (isCallProcess ev)) evs = true →
  form (self (run evs w)) = None.
Proof.
  revert w. induction evs as [ | ev evs IH]; intros w Hf Hevs; [exact Hf | ].
  simpl in Hevs. apply andb_prop in Hevs as [Hev Hevs].
  apply IH; [ | exact Hevs]. apply step_form_none; [exact Hf | ].
  destruct (isCallProcess ev); [discriminate | reflexivity].
Qed.

Lemma run_form_some evs w f :
  consumed (self w) = true → form (self w) = Some f →
  ∃ f', form (self (run evs w)) = Some f' ∧ outer f' = outer f
        ∧ form_maxFields f' = form_maxFields f.
Proof.
  revert w f. induction evs as [ | ev evs IH]; intros w f Hc Hf; [eauto | ].
  destruct (step_form_some ev w f Hc Hf) as (f1 & Hf1 & Ho1 & Hm1).
  destruct (IH (step ev w) f1 (step_consumed ev w Hc) Hf1) as (f2 & Hf2 & Ho2 & Hm2).
  exists f2. simpl. split; [exact Hf2 | ]. split; congruence.
Qed.

(** *** The byte counter *)

Lemma step_processedBytes ev w :
  processedBytes (self (step ev w)) =
  processedBytes (self w)
  + (if unlimited (upperLimit (self w)) then 0 else guardedBytes ev w).
Proof.
  destruct ev; unfold step, guardedBytes, unlimited; unfold_m; simpl in *; case_all;
    try reflexivity; try lia.
Qed.

Lemma run_processedBytes evs w :
  consumed (self w) = true →
  processedBytes (self (run evs w)) =
  processedBytes (self w)
  + (if unlimited (upperLimit (self w)) then 0 else totalGuarded evs w).
Proof.
  revert w. induction evs as [ | ev evs IH]; intros w Hc.
  - simpl. destruct (unlimited _); lia.
  - simpl. rewrite IH by (apply step_consumed, Hc).
    rewrite step_processedBytes, (step_upperLimit ev w Hc).
    destruct (unlimited _); lia.
Qed.

Lemma guardedBytes_nonneg ev w : 0 ≤ guardedBytes ev w.
Proof. destruct ev; simpl; case_all; lia. Qed.

Lemma validateProcessedBytes_spec n w :
  validateProcessedBytes n w =
  (inr (verdict (self w) n),
   {| self := set_processedBytes (counted (self w) n) (self w);
      promises := promises w; tasks := tasks w; log := log w |}).
Proof.
  unfold verdict, counted, unlimited. unfold_m. simpl.
  destruct w as [m ps ts l]. destruct m. simpl.
  case_all; reflexivity.
Qed.

(** *** Promises settle once *)

Lemma settle_settled ps q v p s :
  ps !! p = Some s → s ≠ Pending → settle q v ps !! p = Some s.
Proof.
  intros Hp Hs. unfold settle.
  destruct (ps !! q) as [[ | | e] | ] eqn:Hq; try exact Hp.
  destruct (decide (q = p)) as [-> | Hne]; [congruence | ].
  rewrite list_lookup_insert_ne by exact Hne. exact Hp.
Qed.

Lemma settle_pending ps p v :
  ps !! p = Some Pending → settle p v ps !! p = Some v.
Proof.
  intros Hp. unfold settle. rewrite Hp.
  apply list_lookup_insert_eq. eapply lookup_lt_Some, Hp.
Qed.

Lemma settle_noop ps p v s :
  ps !! p = Some s → s ≠ Pending → settle p v ps = ps.
Proof.
  intros Hp Hs. unfold settle. rewrite Hp. destruct s; congruence.
Qed.

Lemma settle_fresh ps v : settle (length ps) v (ps ++ [Pending]) = ps ++ [v].
Proof.
  unfold settle.
  rewrite lookup_app_r by lia. rewrite Nat.sub_diag. simpl.
  rewrite insert_app_r_alt by lia. rewrite Nat.sub_diag. reflexivity.
Qed.

Lemma settle_take n q v ps ps' :
  take n ps = take n ps' → take n (settle q v ps) = take n (settle q v ps').
Proof.
  intros Hp. unfold settle. destruct (decide (q < n)%nat) as [Hq | Hq].
  - rewrite <- (lookup_take_lt ps n q Hq), <- (lookup_take_lt ps' n q Hq), Hp.
    destruct (take n ps' !! q) as [[ | | e] | ]; try exact Hp.
    rewrite !take_insert_lt by exact Hq. rewrite Hp. reflexivity.
  - assert (Hge : ∀ qs, take n (match qs !! q with
                                 | Some Pending => <[q:=v]> qs
                                 | _ => qs
                                 end) = take n qs).
    { intros qs. destruct (qs !! q) as [[ | | e] | ]; try reflexivity.
      apply take_insert_ge. lia. }
    rewrite !Hge. exact Hp.
Qed.

Lemma settle_length q v ps : length (settle q v ps) = length ps.
Proof.
  unfold settle. destruct (ps !! q) as [[ | | e] | ]; try reflexivity.
  apply length_insert.
Qed.

(** A later [process] call leaves no trace on the promises before it. *)
Lemma step_agree n ev w w' :
  consumed (self w) = true → agree n w w' → agree n (step ev w) (step ev w').
Proof.
  intros Hc (Hs & Ht & Hl & Hp & Hn & Hn').
  destruct w as [m ps ts l], w' as [m' ps' ts' l']. simpl in *. subst m' ts' l'.
  unfold agree.
  destruct ev; unfold step; unfold_m; simpl in *; case_all; simpl.
  all: repeat split; auto; try congruence.
  all: rewrite ?settle_length, ?length_app; simpl; try lia.
  all: try (apply settle_take; exact Hp).
  all: rewrite !settle_fresh, !take_app_le by lia; exact Hp.
Qed.

Lemma run_agree n evs w w' :
  consumed (self w) = true → agree n w w' → agree n (run evs w) (run evs w').
Proof.
  revert w w'. induction evs as [ | ev evs IH]; intros w w' Hc Hag; [exact Hag | ].
  simpl. apply IH; [apply step_consumed, Hc | apply step_agree; assumption].
Qed.

Lemma step_settled ev w p s :
  promises w !! p = Some s → s ≠ Pending → promises (step ev w) !! p = Some s.
Proof.
  intros Hp Hs.
  destruct ev; unfold step; unfold_m; simpl in *; case_all;
    try assumption; try (apply settle_settled; assumption).
  all: try (apply settle_settled; [ | assumption]);
    rewrite lookup_app_l by (eapply lookup_lt_Some; eassumption); assumption.
Qed.

Lemma run_settled evs w p s :
  promises w !! p = Some s → s ≠ Pending → promises (run evs w) !! p = Some s.
Proof.
  revert w. induction evs as [ | ev evs IH]; intros w Hp Hs; [exact Hp | ].
  apply IH; [ | exact Hs]. apply step_settled; assumption.
Qed.

(** *** Aggregation *)

Lemma cleanups_snoc w a l :
  log w = l ++ [a] →
  cleanups w = (length (List.filter isCleanup l) + (if isCleanup a then 1 else 0))%nat.
Proof.
  intros Hl. unfold cleanups. rewrite Hl, List.filter_app, length_app. simpl.
  destruct (isCleanup a); reflexivity.
Qed.

Lemma step_cleanups ev w :
  cleanups (step ev w)
  = (cleanups w + (if isTrigger w ev && completed w then 1 else 0))%nat.
Proof.
  destruct ev; unfold step, isTrigger, completed; unfold_m; simpl in *; case_all;
    unfold cleanups; simpl; rewrite ?List.filter_app, ?length_app; simpl; lia.
Qed.

Lemma run_cleanups evs w :
  cleanups (run evs w) = (cleanups w + satisfactions evs w)%nat.
Proof.
  revert w. induction evs as [ | ev evs IH]; intros w; simpl; [lia | ].
  rewrite IH, step_cleanups. lia.
Qed.

(** A pending promise becomes resolved only in a step that aggregated. *)
Lemma step_resolves_after_cleanup ev w p :
  promises w !! p = Some Pending → promises (step ev w) !! p = Some Resolved →
  cleanups (step ev w) = S (cleanups w)
  ∧ request (self (step ev w)) = published (self w).
Proof.
  intros Hp.
  assert (Hrej : ∀ q e ps, ps !! p = Some Pending → settle q (Rejected e) ps !! p ≠ Some Resolved).
  { intros q e ps Hps. unfold settle.
    destruct (ps !! q) as [[ | | e'] | ] eqn:Hq; try congruence.
    destruct (decide (q = p)) as [-> | Hne].
    - rewrite list_lookup_insert_eq by (eapply lookup_lt_Some, Hps). congruence.
    - rewrite list_lookup_insert_ne by exact Hne. congruence. }
  assert (Happ : ∀ x, (promises w ++ [x]) !! p = Some Pending).
  { intros x. rewrite lookup_app_l by (eapply lookup_lt_Some, Hp). exact Hp. }
  destruct ev; unfold step; unfold_m; simpl in *; case_all; intros Hr;
    try congruence;
    try (exfalso; eapply Hrej; [ | exact Hr]; (exact Hp || apply Happ));
    try (exfalso; rewrite Happ in Hr; congruence).
  all: split; [ | reflexivity].
  all: erewrite cleanups_snoc by (simpl; reflexivity); simpl; unfold cleanups; lia.
Qed.

(** *** A zero or unparsable ceiling *)

Lemma step_forgetLimit ev w :
  consumed (self w) = true → unlimited (upperLimit (self w)) = true →
  forgetLimit (step ev w) = step ev (forgetLimit w).
Proof.
  intros Hc Hu. unfold unlimited in Hu.
  destruct ev; unfold forgetLimit, step; unfold_m; simpl in *; case_all; reflexivity.
Qed.

Lemma step_unlimited ev w :
  consumed (self w) = true → unlimited (upperLimit (self w)) = true →
  unlimited (upperLimit (self (step ev w))) = true.
Proof. intros Hc Hu. rewrite step_upperLimit by exact Hc. exact Hu. Qed.

Lemma run_forgetLimit evs w :
  consumed (self w) = true → unlimited (upperLimit (self w)) = true →
  forgetLimit (run evs w) = run evs (forgetLimit w).
Proof.
  revert w. induction evs as [ | ev evs IH]; intros w Hc Hu; [reflexivity | ].
  simpl. rewrite IH by (auto using step_consumed, step_unlimited).
  rewrite step_forgetLimit by assumption. reflexivity.
Qed.

(** ** The claims *)

(** C1 (as amended). Each time one of the two triggers finds the completion
    predicate true, [cleanup] publishes both accumulators to the request and
    then [resolve] is called: the number of aggregations grows by one also
    when the outer promise is already settled, in which case only the
    [resolve] call is without effect. A trigger that finds the predicate
    false neither aggregates nor resolves, so over a run [cleanup] is executed
    as many times as a trigger found the predicate true. *)
Theorem aggregation_at_each_satisfaction (w : World) (f : Form) (ev : Event)
    (evs : list Event) :
  form (self w) = Some f → isTrigger w ev = true →
  let w' := step ev w in
  (if completed w then
     log w' = log w ++ [SetInitialBody (FormFields.get (fields (self w)))]
     ∧ cleanups w' = S (cleanups w)
     ∧ request (self w') = published (self w)
     ∧ promises w' = settle (outer f) Resolved (promises w)
     ∧ (∀ s, promises w !! outer f = Some s → s ≠ Pending → promises w' = promises w)
   else
     log w' = log w ∧ cleanups w' = cleanups w
     ∧ request (self w') = request (self w) ∧ promises w' = promises w)
  ∧ cleanups (run evs w) = (cleanups w + satisfactions evs w)%nat.
Proof.
  intros Hf Htr w'. split; [ | apply run_cleanups].
  assert (Hstep :
    if completed w then
      log w' = log w ++ [SetInitialBody (FormFields.get (fields (self w)))]
      ∧ request (self w') = published (self w)
      ∧ promises w' = settle (outer f) Resolved (promises w)
    else log w' = log w ∧ request (self w') = request (self w) ∧ promises w' = promises w).
  { subst w'. unfold completed. rewrite Hf.
    destruct ev; try discriminate; unfold isTrigger in Htr; unfold step; rewrite ?Hf.
    - unfold_m. simpl. rewrite Hf. simpl.
      destruct ((flushing f <=? 0) && (pendingHandlers (self w) <=? 0)); simpl;
        rewrite ?Hf; simpl; auto.
    - destruct (tasks w !! task) as [[part tracker [ | | ]] | ]; try discriminate.
      unfold_m. simpl. rewrite Hf. simpl.
      destruct ((flushing f <=? 0) && (pendingHandlers (self w) <=? 0)); simpl;
        rewrite ?Hf; simpl; auto. }
  destruct (completed w).
  - destruct Hstep as (Hlog & Hreq & Hps). repeat split; try assumption.
    + rewrite (cleanups_snoc w' _ _ Hlog). simpl. unfold cleanups. lia.
    + intros s Hs Hne. rewrite Hps. eapply settle_noop; eassumption.
  - destruct Hstep as (Hlog & Hreq & Hps). repeat split; try assumption.
    unfold cleanups. rewrite Hlog. reflexivity.
Qed.

(** C2 (as amended). The processed-bytes counter never decreases. While a
    non-zero ceiling is configured it grows by exactly the bytes handed to
    the guard (the chunks given to progress callbacks and the values of
    fields with a non-empty key) and the guard compares the new total with
    the ceiling at each of them; with no ceiling it is not touched. *)
Theorem processed_bytes_accounting (evs : list Event) (w : World) (ev : Event) (n : Z) :
  consumed (self w) = true →
  processedBytes (self w) ≤ processedBytes (self (step ev w))
  ∧ processedBytes (self (step ev w)) = counted (self w) (guardedBytes ev w)
  ∧ processedBytes (self (run evs w)) =
      processedBytes (self w)
      + (if unlimited (upperLimit (self w)) then 0 else totalGuarded evs w)
  ∧ validateProcessedBytes n w =
      (inr (verdict (self w) n),
       {| self := set_processedBytes (counted (self w) n) (self w);
          promises := promises w; tasks := tasks w; log := log w |})
  ∧ (verdict (self w) n = Some entityTooLarge ↔
       ∃ ceiling, upperLimit (self w) = Some ceiling ∧ ceiling ≠ 0
                  ∧ ceiling < processedBytes (self w) + n)
  ∧ (verdict (self w) n = None ∨ verdict (self w) n = Some entityTooLarge).
Proof.
  intros Hc.
  pose proof (step_processedBytes ev w) as Hstep.
  pose proof (guardedBytes_nonneg ev w) as Hpos.
  split; [destruct (unlimited _); lia | ].
  split; [unfold counted; destruct (unlimited _); lia | ].
  split; [apply run_processedBytes, Hc | ].
  split; [apply validateProcessedBytes_spec | ].
  unfold verdict, entityTooLarge.
  destruct (upperLimit (self w)) as [ceiling | ]; [ | split; [split; [discriminate | ] | auto]].
  - destruct (Z.eqb_spec ceiling 0) as [-> | Hne].
    + split; [split; [discriminate | intros (c & [= <-] & Hc0 & _); lia] | auto].
    + destruct (processedBytes (self w) + n >? ceiling) eqn:Hgt.
      * split; [ | auto]. split; [ | reflexivity]. intros _. exists ceiling. repeat split; [exact Hne | lia].
      * split; [ | auto]. split; [discriminate | ]. intros (c & [= <-] & _ & Hlt). lia.
  - intros (c & Hc0 & _). discriminate.
Qed.



(** C6. When the awaited handler call throws or rejects, the error is
    reported to the tracker of that part, the file the tracker then holds,
    if any, is appended to the file accumulator under its field name, and
    the pending-handler counter is decremented; no promise changes and no
    other task is touched. The resumed part listener can then only resolve:
    a promise that was pending is not rejected by it. *)
Theorem handler_failure_is_local (w : World) (task : nat) (t : Task)
    (tracker : PartHandler) (error : JsError) :
  tasks w !! task = Some t → partHandler t = Some tracker → phase t = AwaitHandler →
  let failed := reportError error tracker in
  let w' := step (HandlerSettles task (Threw error)) w in
  w' = {| self := set_pendingHandlers (pendingHandlers (self w) - 1)
                    (match getFile failed with
                     | Some file =>
                         set_files (FormFields.add (fieldName file) file (files (self w)))
                           (self w)
                     | None => self w
                     end);
          promises := promises w;
          tasks := alter (λ t, {| task_part := task_part t;
                                  partHandler := Some failed;
                                  phase := AwaitHandlePart |}) task (tasks w);
          log := log w |}
  ∧ (∀ p e, promises w !! p = Some Pending →
        promises (step (ListenerResumes task) w') !! p ≠ Some (Rejected e)).
Proof.
  intros Ht Htr Hph failed w'.
  assert (Hw' : w' = {| self := set_pendingHandlers (pendingHandlers (self w) - 1)
                    (match getFile failed with
                     | Some file =>
                         set_files (FormFields.add (fieldName file) file (files (self w)))
                           (self w)
                     | None => self w
                     end);
          promises := promises w;
          tasks := alter (λ t, {| task_part := task_part t;
                                  partHandler := Some failed;
                                  phase := AwaitHandlePart |}) task (tasks w);
          log := log w |}).
  { subst w' failed. unfold step. rewrite Ht.
    destruct t as [part ph phs]. simpl in Htr, Hph. subst ph phs.
    unfold_m. simpl. destruct (getFile (reportError error tracker)); reflexivity. }
  split; [exact Hw' | ].
  intros p e Hp. rewrite Hw'. clear Hw' w'.
  assert (Hres : ∀ q, settle q Resolved (promises w) !! p ≠ Some (Rejected e)).
  { intros q. unfold settle.
    destruct (promises w !! q) as [[ | | e'] | ] eqn:Hq; try congruence.
    destruct (decide (q = p)) as [-> | Hne].
    - rewrite list_lookup_insert_eq by (eapply lookup_lt_Some, Hp). congruence.
    - rewrite list_lookup_insert_ne by exact Hne. congruence. }
  unfold step. unfold_m. simpl. case_all; try apply Hres; congruence.
Qed.

(** C7. Once [process] has been called on an instance, any later call
    rejects the promise it returns with the already-consumed exception and
    changes nothing else: the object (so neither the configuration nor the
    decoder), the tasks, the calls made so far and every earlier promise stay
    as they were, and whatever happens afterwards the earlier promises end
    as they would have without that call. The consumed flag is set by a
    [process] call only and is never cleared. *)
Theorem second_process_rejected (w0 : World) (first second : option Config)
    (evs : list Event) :
  let w := run evs (step (CallProcess first) w0) in
  let w' := {| self := self w; promises := promises w ++ [Rejected alreadyConsumed];
               tasks := tasks w; log := log w |} in
  process second w = (inr (length (promises w)), w')
  ∧ step (CallProcess second) w = w'
  ∧ (∀ p s, promises w !! p = Some s → promises w' !! p = Some s)
  ∧ (∀ later p, (p < length (promises w))%nat →
       promises (run later w') !! p = promises (run later w) !! p)
  ∧ (∀ ev w, consumed (self w) = true → consumed (self (step ev w)) = true)
  ∧ (∀ ev w, consumed (self w) = false → consumed (self (step ev w)) = true →
       isCallProcess ev = true).
Proof.
  intros w w'.
  assert (Hc : consumed (self w) = true).
  { apply run_consumed. unfold step. unfold_m. simpl.
    destruct (consumed (self w0)) eqn:Hc0; simpl; [exact Hc0 | reflexivity]. }
  assert (Hp : process second w = (inr (length (promises w)), w')).
  { unfold process. unfold_m. simpl. rewrite Hc. simpl.
    rewrite settle_fresh. reflexivity. }
  split; [exact Hp | ].
  split; [unfold step, exec; rewrite Hp; reflexivity | ].
  split; [intros p s Hs; simpl; rewrite lookup_app_l by (eapply lookup_lt_Some, Hs); exact Hs | ].
  split.
  { intros later p Hlt.
    assert (Hag : agree (length (promises w)) w w').
    { unfold agree. subst w'. simpl. repeat split; rewrite ?length_app; try lia.
      rewrite take_app_le by lia. reflexivity. }
    destruct (run_agree _ later w w' Hc Hag) as (_ & _ & _ & Htake & _).
    rewrite <- (lookup_take_lt (promises (run later w')) _ p Hlt).
    rewrite <- (lookup_take_lt (promises (run later w)) _ p Hlt).
    rewrite Htake. reflexivity. }
  split; [apply step_consumed | apply step_consumed_by_process].
Qed.

(** C8. A field with an empty key changes nothing. Otherwise the guard sees
    the length of the value: when it reports a failure the error goes to
    [abort], which rejects the outer promise, and the field accumulator is
    left as it was; when it reports none the value is appended after the
    values already stored under that key. An exception thrown by
    [handleField] is caught by the listener and handed to [abort] as well. *)
Theorem field_arrival (w : World) (f : Form) (key : string) (value : JsValue) :
  form (self w) = Some f →
  let w' := step (DecoderField key value) w in
  (key = "" → w' = w)
  ∧ (key ≠ "" → ∀ s, value = JsString s →
       let n := Z.of_nat (String.length s) in
       match verdict (self w) n with
       | Some error =>
           error = entityTooLarge
           ∧ w' = {| self := set_processedBytes (counted (self w) n) (self w);
                     promises := settle (outer f) (Rejected error) (promises w);
                     tasks := tasks w; log := log w |}
           ∧ fields (self w') = fields (self w)
       | None =>
           w' = {| self := set_fields (FormFields.add key s (fields (self w)))
                             (set_processedBytes (counted (self w) n) (self w));
                   promises := promises w; tasks := tasks w; log := log w |}
           ∧ FormFields.values key (fields (self w'))
             = FormFields.values key (fields (self w)) ++ [s]
       end)
  ∧ (∀ error w1, handleField key value w = (inl error, w1) →
       w' = exec (abort error) w1
       ∧ promises w' = settle (outer f) (Rejected (surfaced error)) (promises w1))
  ∧ (key ≠ "" → value ≠ JsUndefined → value ≠ JsNull →
       ∃ r, handleField key value w = (inr tt, r)).
Proof.
  intros Hf w'. subst w'. unfold step. rewrite Hf.
  split; [ | split; [ | split]].
  - intros ->. unfold_m. simpl. destruct w; reflexivity.
  - intros Hkey s Hs. subst value. cbv zeta.
    assert (Hv : verdict (self w) (Z.of_nat (String.length s)) = None
                 ∨ verdict (self w) (Z.of_nat (String.length s)) = Some entityTooLarge).
    { unfold verdict, entityTooLarge. case_all; auto. }
    unfold_listeners.
    destruct (String.eqb_spec key "") as [Heq | _]; [contradiction | ].
    simpl. rewrite validateProcessedBytes_spec.
    destruct Hv as [-> | ->]; simpl; rewrite ?Hf; simpl.
    + split; [reflexivity | ]. apply values_add.
    + repeat split.
  - intros error w1 Hthrow.
    assert (Hf1 : form (self w1) = Some f).
    { revert Hthrow. unfold_m. simpl. rewrite ?Hf. case_all; intros [= <- <-]; simpl; exact Hf. }
    unfold exec at 1 3. unfold onField, tryCatch. rewrite Hthrow.
    split; [unfold exec; destruct (abort error w1) as [[e | []] r]; reflexivity | ].
    unfold_m. rewrite Hf1. unfold surfaced, maxFieldsExceeded.
    destruct (message error =? "maxFields 1 exceeded.")%string; reflexivity.
  - intros Hkey Hu Hn.
    destruct (String.eqb_spec key "") as [Heq | _]; [contradiction | ].
    destruct value as [s | | ]; try contradiction.
    unfold_listeners.
    destruct (String.eqb_spec key "") as [Heq | _]; [contradiction | ].
    simpl. rewrite validateProcessedBytes_spec.
    destruct (verdict (self w) (Z.of_nat (String.length s))) as [e | ]; simpl;
      rewrite ?Hf; simpl; eauto.
    destruct (message e =? "maxFields 1 exceeded.")%string; eauto.
Qed.

(** C9. When [process] is called with a limit of [0], or with a size string
    for which the parser returns [null], the guard is off for the whole run:
    the counter keeps its value, the guard never reports a failure, and up to
    the stored ceiling itself the run is the run with no limit configured. *)
Theorem zero_or_unparsable_limit_disables_guard (w : World) (cfg : Config)
    (evs : list Event) :
  consumed (self w) = false →
  (limit cfg = Some (SizeNumber 0)
   ∨ ∃ s, limit cfg = Some (SizeString s) ∧ bytes s = None) →
  let w1 := run evs (step (CallProcess (Some cfg)) w) in
  unlimited (upperLimit (self w1)) = true
  ∧ processedBytes (self w1) = processedBytes (self w)
  ∧ (∀ n, validateProcessedBytes n w1 = (inr None, w1))
  ∧ forgetLimit w1 =
      run evs (step (CallProcess (Some {| maxFields := maxFields cfg; limit := None |}))
                 (forgetLimit w)).
Proof.
  intros Hc Hlimit w1.
  set (w0 := step (CallProcess (Some cfg)) w) in *.
  assert (Hc0 : consumed (self w0) = true).
  { subst w0. unfold step. unfold_m. simpl. rewrite Hc. reflexivity. }
  assert (Hu0 : unlimited (upperLimit (self w0)) = true).
  { subst w0. unfold step. unfold_m. simpl. rewrite Hc. simpl.
    destruct Hlimit as [-> | (s & -> & Hs)]; simpl; [reflexivity | ].
    unfold sizeOf. rewrite Hs. reflexivity. }
  assert (Hp0 : processedBytes (self w0) = processedBytes (self w)).
  { subst w0. unfold step. unfold_m. simpl. rewrite Hc. reflexivity. }
  assert (Hu1 : unlimited (upperLimit (self w1)) = true).
  { subst w1. rewrite run_upperLimit by exact Hc0. exact Hu0. }
  split; [exact Hu1 | ].
  split.
  { subst w1. rewrite run_processedBytes by exact Hc0. rewrite Hu0. lia. }
  split.
  { intros n. rewrite validateProcessedBytes_spec.
    unfold verdict, counted. rewrite Hu1. unfold unlimited in Hu1.
    destruct w1 as [m ps ts l]. destruct m as [? ? ? ? ? ul ? ? ? ?]. simpl in *.
    destruct ul as [z | ]; [rewrite Hu1 | ]; reflexivity. }
  subst w1. rewrite run_forgetLimit by assumption. f_equal.
  subst w0. unfold forgetLimit, step. unfold_m. simpl. rewrite Hc. simpl.
  destruct (maxFields cfg); reflexivity.
Qed.

(** C10. As long as [process] has not been called, [abort] throws the
    [TypeError] of reading a member of the undefined form: no promise is
    touched and the exception reaches the caller. After [process] created
    the decoder, [abort] hands the error to the 'error' listener, which
    rejects the outer promise. *)
Theorem abort_before_process_throws (cfg : Config) (evs : list Event) (error : JsError) :
  forallb (λ ev, negb (isCallProcess ev)) evs = true →
  let w := run evs (construct cfg) in
  abort error w = (inl (TypeError "Cannot read properties of undefined"), w)
  ∧ promises (step (CallAbort error) w) = promises w
  ∧ log (step (CallAbort error) w)
    = log w ++ [Uncaught (TypeError "Cannot read properties of undefined")]
  ∧ ∀ conf evs',
      let w' := run evs' (step (CallProcess conf) w) in
      ∃ f, form (self w') = Some f
           ∧ abort error w' =
               (inr tt, {| self := self w';
                           promises := settle (outer f) (Rejected (surfaced error)) (promises w');
                           tasks := tasks w'; log := log w' |}).
Proof.
  intros Hevs w.
  assert (Hf : form (self w) = None) by (apply run_form_none; [reflexivity | exact Hevs]).
  assert (Ha : abort error w = (inl (TypeError "Cannot read properties of undefined"), w)).
  { unfold_m. rewrite Hf. reflexivity. }
  split; [exact Ha | ].
  split; [unfold step, exec; rewrite Ha; reflexivity | ].
  split; [unfold step, exec; rewrite Ha; reflexivity | ].
  intros conf evs' w'.
  set (w1 := step (CallProcess conf) w) in *.
  assert (Hcw : consumed (self w) = false).
  { (* the flag is set by [process] only *)
    subst w. clear -Hevs. generalize (construct cfg), (eq_refl : consumed (self (construct cfg)) = false).
    induction evs as [ | ev evs IH]; intros w Hc; [exact Hc | ].
    simpl in Hevs. apply andb_prop in Hevs as [Hev Hevs].
    apply IH; [exact Hevs | ].
    destruct (consumed (self (step ev w))) eqn:Hs; [ | reflexivity].
    rewrite (step_consumed_by_process ev w Hc Hs) in Hev. discriminate. }
  assert (H1 : consumed (self w1) = true ∧ ∃ f1, form (self w1) = Some f1).
  { subst w1. unfold step. unfold_m. simpl. rewrite Hcw. simpl.
    split; [reflexivity | eauto]. }
  destruct H1 as (Hc1 & f1 & Hf1).
  destruct (run_form_some evs' w1 f1 Hc1 Hf1) as (f & Hform & _ & _).
  change (run evs' w1) with w' in Hform. clearbody w'.
  exists f. split; [exact Hform | ].
  unfold_m. rewrite Hform. unfold surfaced, maxFieldsExceeded.
  destruct (message error =? "maxFields 1 exceeded.")%string; reflexivity.
Qed.

(** ** Further properties *)

(** *** Counting tasks *)

Lemma filter_alter_count (q : Task → bool) (f : Task → Task) i ts t :
  ts !! i = Some t →
  (length (List.filter q (alter f i ts)) + (if q t then 1 else 0)
   = length (List.filter q ts) + (if q (f t) then 1 else 0))%nat.
Proof.
  revert i. induction ts as [ | x ts IH]; intros [ | i] Hi; try discriminate; simpl in *.
  - injection Hi as ->. destruct (q t), (q (f t)); simpl; lia.
  - specialize (IH i Hi). unfold alter in IH. destruct (q x); simpl; lia.
Qed.

Lemma filter_snoc_count (q : Task → bool) ts t :
  length (List.filter q (ts ++ [t]))
  = (length (List.filter q ts) + (if q t then 1 else 0))%nat.
Proof. rewrite List.filter_app, length_app. simpl. destruct (q t); reflexivity. Qed.

Ltac count_tasks q :=
  repeat match goal with
  | |- context [List.filter q (alter ?f ?i ?ts)] =>
      match goal with
      | Hi : ts !! i = Some ?t |- _ =>
          let Hc := fresh "Hcount" in
          pose proof (filter_alter_count q f i ts t Hi) as Hc;
          simpl in Hc;
          generalize dependent (length (List.filter q (alter f i ts))); intros
      end
  end.

Lemma step_pending ev w :
  pendingHandlers (self w) = Z.of_nat (awaiting (tasks w)) →
  pendingHandlers (self (step ev w)) = Z.of_nat (awaiting (tasks (step ev w))).
Proof.
  unfold awaiting. intros Hinv.
  destruct ev; unfold step; unfold_m; simpl in *; case_all; try assumption;
    rewrite ?filter_snoc_count; simpl; try lia;
    count_tasks (@isAwaitHandler H0); unfold isAwaitHandler in *; simpl in *; try lia.
Qed.

Lemma run_invariant (P : World → Prop) evs w :
  (∀ ev w, P w → P (step ev w)) → P w → P (run evs w).
Proof.
  intros Hstep. revert w. induction evs as [ | ev evs IH]; intros w Hw; [exact Hw | ].
  simpl. apply IH, Hstep, Hw.
Qed.

Lemma reached_pending cfg evs :
  pendingHandlers (self (run evs (construct cfg)))
  = Z.of_nat (awaiting (tasks (run evs (construct cfg)))).
Proof.
  apply (run_invariant (λ w, pendingHandlers (self w) = Z.of_nat (awaiting (tasks w)))).
  - intros ev w. apply step_pending.
  - reflexivity.
Qed.

(** X3. On every world reached from a new instance the pending-handler
    counter is the number of handler calls that were made and have not
    settled yet; in particular it is never negative. *)
Theorem pending_counter_counts_awaited_handlers (cfg : Config) (evs : list Event) :
  let w := run evs (construct cfg) in
  pendingHandlers (self w) = Z.of_nat (awaiting (tasks w))
  ∧ 0 ≤ pendingHandlers (self w).
Proof.
  intros w. pose proof (reached_pending cfg evs) as Hinv. fold w in Hinv.
  split; [exact Hinv | lia].
Qed.

Lemma step_resolved_inv ev w p :
  promises w !! p = Some Pending → promises (step ev w) !! p = Some Resolved →
  isTrigger w ev = true ∧ completed w = true
  ∧ ∃ f, form (self w) = Some f ∧ outer f = p.
Proof.
  intros Hp.
  assert (Hrej : ∀ q e ps, ps !! p = Some Pending → settle q (Rejected e) ps !! p ≠ Some Resolved).
  { intros q e ps Hps. unfold settle.
    destruct (ps !! q) as [[ | | e'] | ] eqn:Hq; try congruence.
    destruct (decide (q = p)) as [-> | Hne].
    - rewrite list_lookup_insert_eq by (eapply lookup_lt_Some, Hps). congruence.
    - rewrite list_lookup_insert_ne by exact Hne. congruence. }
  assert (Hres : ∀ q, settle q Resolved (promises w) !! p = Some Resolved → q = p).
  { intros q. unfold settle.
    destruct (promises w !! q) as [[ | | e'] | ] eqn:Hq; try congruence.
    destruct (decide (q = p)) as [-> | Hne]; [reflexivity | ].
    rewrite list_lookup_insert_ne by exact Hne. congruence. }
  assert (Happ : ∀ x, (promises w ++ [x]) !! p = Some Pending).
  { intros x. rewrite lookup_app_l by (eapply lookup_lt_Some, Hp). exact Hp. }
  destruct ev; unfold step, isTrigger, completed; unfold_m; simpl in *; case_all; intros Hr;
    try congruence;
    try (exfalso; eapply Hrej; [ | exact Hr]; (exact Hp || apply Happ));
    try (exfalso; rewrite Happ in Hr; congruence).
  all: repeat split; eauto.
Qed.

(** X4. The promise returned by [process] is resolved only by one of the
    two triggers, at a moment when the decoder has nothing left to flush and
    no handler call is awaited; the request then holds the fields and files
    accumulated so far. No other promise is ever resolved. *)
Theorem resolves_only_when_nothing_is_pending (cfg : Config) (evs : list Event)
    (ev : Event) (p : nat) :
  let w := run evs (construct cfg) in
  promises w !! p = Some Pending → promises (step ev w) !! p = Some Resolved →
  isTrigger w ev = true
  ∧ awaiting (tasks w) = 0%nat
  ∧ (∃ f, form (self w) = Some f ∧ outer f = p ∧ flushing f ≤ 0)
  ∧ request (self (step ev w)) = published (self w).
Proof.
  intros w Hp Hr.
  destruct (step_resolved_inv ev w p Hp Hr) as (Htr & Hdone & f & Hf & Ho).
  pose proof (reached_pending cfg evs) as Hcount.
  fold w in Hcount. unfold completed in Hdone. rewrite Hf in Hdone.
  apply andb_prop in Hdone as [Hfl Hpe].
  apply Z.leb_le in Hfl, Hpe.
  split; [exact Htr | ]. split; [lia | ].
  split; [eauto | ].
  apply (step_resolves_after_cleanup ev w p Hp Hr).
Qed.

(** X5. A decoder error rejects the promise of [process], when it is still
    pending, with that error (the literal too-many-fields message replaced
    by the dedicated exception) and does nothing else: no aggregation, the
    object untouched. The rejection is final: whatever is notified, called or
    aborted afterwards, the promise keeps this error. *)
Theorem decoder_error_rejects_for_good (w : World) (f : Form) (error : JsError)
    (later : list Event) :
  form (self w) = Some f → promises w !! outer f = Some Pending →
  let w' := step (DecoderError error) w in
  w' = {| self := self w;
          promises := <[outer f := Rejected (surfaced error)]> (promises w);
          tasks := tasks w; log := log w |}
  ∧ cleanups w' = cleanups w
  ∧ promises (run later w') !! outer f = Some (Rejected (surfaced error)).
Proof.
  intros Hf Hp w'.
  assert (Hw' : w' = {| self := self w;
                        promises := <[outer f := Rejected (surfaced error)]> (promises w);
                        tasks := tasks w; log := log w |}).
  { subst w'. unfold step. rewrite Hf. unfold_m. unfold surfaced, maxFieldsExceeded, settle.
    destruct (message error =? "maxFields 1 exceeded.")%string; simpl; rewrite Hp; reflexivity. }
  split; [exact Hw' | ].
  split; [rewrite Hw'; reflexivity | ].
  apply run_settled; [ | discriminate].
  rewrite Hw'. simpl. apply list_lookup_insert_eq. eapply lookup_lt_Some, Hp.
Qed.

Lemma step_request ev w :
  request (self (step ev w))
  = if isTrigger w ev && completed w then published (self w) else request (self w).
Proof.
  destruct ev; unfold step, isTrigger, completed, published; unfold_m; simpl in *;
    case_all; reflexivity.
Qed.

(** X12. The request is written by [cleanup] only: a step changes
    [__raw_files] and the initial body exactly when it is a trigger that
    finds the completion predicate true, and then to the accumulators of
    that moment. A run in which no trigger finds it true, whatever errors
    occur, leaves the request as it was. *)
Theorem request_written_at_completion_only (w : World) (ev : Event) (evs : list Event) :
  request (self (step ev w))
  = (if isTrigger w ev && completed w then published (self w) else request (self w))
  ∧ (satisfactions evs w = 0%nat → request (self (run evs w)) = request (self w)).
Proof.
  split; [apply step_request | ].
  revert w. induction evs as [ | e evs IH]; intros w Hnone; [reflexivity | ].
  simpl in *. rewrite IH by lia. rewrite step_request.
  destruct (isTrigger w e && completed w); [lia | reflexivity].
Qed.


(** *** The name normalisation, continued *)

Lemma getHandlerName_noBracket s : noBracket s = true → getHandlerName s = s.
Proof.
  induction s as [ | c s IH]; [reflexivity | ]. cbn [noBracket getHandlerName].
  intros [Hc Hs]%andb_prop. apply negb_true_iff in Hc. rewrite Hc, (IH Hs). reflexivity.
Qed.

Lemma closeIndex_length s tail :
  closeIndex s = Some tail → (String.length tail < String.length s)%nat.
Proof.
  revert tail. induction s as [ | c s IH]; intros tail; cbn [closeIndex]; [discriminate | ].
  destruct (Ascii.eqb c "]").
  - intros [= ->]. simpl. lia.
  - destruct (isDigit c); [ | discriminate]. intros Hs. specialize (IH _ Hs). simpl. lia.
Qed.

(** X2. [getHandlerName] removes one index expression at most, the first:
    when no bracket precedes it, what stands before and after it is kept as
    it is, further index expressions included; a name without any bracket is
    returned unchanged; and the result is the name itself or at least two
    characters shorter. *)
Theorem getHandlerName_removes_first_index_only (pre ds post s : string) :
  noBracket pre = true → digits ds = true →
  getHandlerName (pre +:+ "[" +:+ ds +:+ "]" +:+ post) = pre +:+ post
  ∧ getHandlerName pre = pre
  ∧ (getHandlerName s = s
     ∨ (String.length (getHandlerName s) + 2 ≤ String.length s)%nat).
Proof.
  intros Hpre Hds.
  split; [ | split; [apply getHandlerName_noBracket, Hpre | ]].
  - clear s. induction pre as [ | c pre IH].
    + pose proof (closeIndex_digits ds post Hds) as Hclose.
      change ("" +:+ "[" +:+ ds +:+ "]" +:+ post)
        with (String "[" (ds +:+ "]" +:+ post)).
      cbn [getHandlerName Ascii.eqb Bool.eqb]. rewrite Hclose. reflexivity.
    + cbn [noBracket] in Hpre. apply andb_prop in Hpre as [Hc Hpre].
      apply negb_true_iff in Hc.
      rewrite (append_String c pre). cbn [getHandlerName]. rewrite Hc, (IH Hpre).
      reflexivity.
  - clear. induction s as [ | c s IH]; [left; reflexivity | ].
    cbn [getHandlerName].
    assert (Hkeep : String c (getHandlerName s) = String c s
                    ∨ (String.length (String c (getHandlerName s)) + 2
                       ≤ String.length (String c s))%nat).
    { destruct IH as [-> | IH]; [left; reflexivity | right; simpl; lia]. }
    destruct (Ascii.eqb c "["); [ | exact Hkeep].
    destruct (closeIndex s) as [tail | ] eqn:Hclose; [ | exact Hkeep].
    right. apply closeIndex_length in Hclose. simpl. lia.
Qed.

(** *** The guard over a run *)

Lemma totalGuarded_nonneg evs w : 0 ≤ totalGuarded evs w.
Proof.
  revert w. induction evs as [ | ev evs IH]; intros w; simpl; [lia | ].
  pose proof (guardedBytes_nonneg ev w). specialize (IH (step ev w)). lia.
Qed.

Lemma run_processedBytes_mono evs w :
  processedBytes (self w) ≤ processedBytes (self (run evs w)).
Proof.
  revert w. induction evs as [ | ev evs IH]; intros w; simpl; [lia | ].
  specialize (IH (step ev w)). pose proof (step_processedBytes ev w) as Hs.
  pose proof (guardedBytes_nonneg ev w). destruct (unlimited _); lia.
Qed.

Lemma verdict_exceeded m l n :
  upperLimit m = Some l → l ≠ 0 → l < processedBytes m + n →
  verdict m n = Some entityTooLarge.
Proof.
  intros Hl Hne Hlt. unfold verdict, entityTooLarge. rewrite Hl.
  destruct (Z.eqb_spec l 0); [contradiction | ].
  destruct (Z.gtb_spec (processedBytes m + n) l); [reflexivity | lia].
Qed.

Lemma field_dropped_on_failure key value w :
  (∀ n, 0 ≤ n → verdict (self w) n = Some entityTooLarge) →
  fields (self (step (DecoderField key value) w)) = fields (self w).
Proof.
  intros Hv. unfold step. destruct (form (self w)) as [f | ] eqn:Hf; [ | reflexivity].
  unfold_listeners. destruct (key =? "")%string; [reflexivity | ].
  destruct value as [s | | ]; simpl; rewrite ?Hf; simpl; try reflexivity.
  rewrite validateProcessedBytes_spec, (Hv (Z.of_nat (String.length s))) by lia.
  simpl. rewrite Hf. reflexivity.
Qed.

(** X7. Once the counter has passed a non-zero ceiling the guard does not
    recover: in every later world of the run it reports the failure for any
    further increment, the counter is not reset, and no field that arrives
    from then on is added to the field accumulator. *)
Theorem guard_keeps_failing (w : World) (ceiling : Z) (evs : list Event) :
  consumed (self w) = true → upperLimit (self w) = Some ceiling → ceiling ≠ 0 →
  ceiling < processedBytes (self w) →
  let w' := run evs w in
  ceiling < processedBytes (self w')
  ∧ (∀ n, 0 ≤ n → verdict (self w') n = Some entityTooLarge)
  ∧ (∀ key value, fields (self (step (DecoderField key value) w')) = fields (self w')).
Proof.
  intros Hc Hl Hne Hlt w'.
  pose proof (run_processedBytes_mono evs w) as Hmono. fold w' in Hmono.
  assert (Hl' : upperLimit (self w') = Some ceiling).
  { subst w'. rewrite run_upperLimit by exact Hc. exact Hl. }
  assert (Hv : ∀ n, 0 ≤ n → verdict (self w') n = Some entityTooLarge).
  { intros n Hn. apply (verdict_exceeded _ ceiling); [exact Hl' | exact Hne | lia]. }
  split; [lia | ]. split; [exact Hv | ].
  intros key value. apply field_dropped_on_failure, Hv.
Qed.


(** *** Runs that stay within the ceiling *)

Lemma verdict_within m n :
  0 ≤ n →
  (unlimited (upperLimit m) = true
   ∨ ∃ l, upperLimit m = Some l ∧ processedBytes m + n ≤ l) →
  verdict m n = None.
Proof.
  intros Hn Hok. unfold verdict, unlimited in *.
  destruct (upperLimit m) as [l | ]; [ | reflexivity].
  destruct (Z.eqb_spec l 0); [reflexivity | ].
  destruct Hok as [Hu | (l' & [= <-] & Hle)]; [discriminate | ].
  destruct (Z.gtb_spec (processedBytes m + n) l); [lia | reflexivity].
Qed.

Lemma step_not_rejected ev w f :
  consumed (self w) = true → form (self w) = Some f → benign ev = true →
  verdict (self w) (guardedBytes ev w) = None →
  (promises w !! outer f = Some Pending ∨ promises w !! outer f = Some Resolved) →
  promises (step ev w) !! outer f = Some Pending
  ∨ promises (step ev w) !! outer f = Some Resolved.
Proof.
  intros Hc Hf Hb Hv Hp.
  assert (Hres : ∀ q, settle q Resolved (promises w) !! outer f = Some Pending
                      ∨ settle q Resolved (promises w) !! outer f = Some Resolved).
  { intros q. unfold settle.
    destruct (promises w !! q) as [[ | | e'] | ] eqn:Hq; try exact Hp.
    destruct (decide (q = outer f)) as [-> | Hne].
    - right. apply list_lookup_insert_eq. eapply lookup_lt_Some, Hq.
    - rewrite list_lookup_insert_ne by exact Hne. exact Hp. }
  assert (Happ : ∀ x, (promises w ++ [x]) !! outer f = promises w !! outer f).
  { intros x. destruct Hp as [Hp | Hp]; apply lookup_app_l; eapply lookup_lt_Some, Hp. }
  unfold verdict, guardedBytes in Hv.
  destruct ev; unfold step, benign in *; unfold_m; simpl in *; rewrite ?Hc, ?Hf in *;
    simpl in *; case_all; simplify_eq; simpl in *;
    rewrite ?settle_fresh, ?Happ; try exact Hp; try apply Hres; try congruence.
Qed.

(** X8. While the bytes handed to the guard stay within the ceiling (or no
    ceiling is set), a run without decoder errors, [abort] calls and fields
    without a length never rejects the promise of [process]: it is still
    pending or resolved. Handlers that throw, parts without a handler and
    further [process] calls do not reject it. *)
Theorem within_limit_never_rejected (w : World) (f : Form) (evs : list Event) :
  consumed (self w) = true → form (self w) = Some f →
  promises w !! outer f = Some Pending →
  forallb benign evs = true →
  (unlimited (upperLimit (self w)) = true
   ∨ ∃ ceiling, upperLimit (self w) = Some ceiling
                ∧ processedBytes (self w) + totalGuarded evs w ≤ ceiling) →
  promises (run evs w) !! outer f = Some Pending
  ∨ promises (run evs w) !! outer f = Some Resolved.
Proof.
  intros Hc Hf Hp. assert (Hp' : promises w !! outer f = Some Pending
                                 ∨ promises w !! outer f = Some Resolved) by auto.
  clear Hp. revert w f Hc Hf Hp'.
  induction evs as [ | ev evs IH]; intros w f Hc Hf Hp Hb Hok; [exact Hp | ].
  simpl in Hb. apply andb_prop in Hb as [Hev Hevs]. simpl in Hok.
  pose proof (guardedBytes_nonneg ev w) as Hg.
  pose proof (totalGuarded_nonneg evs (step ev w)) as Ht.
  assert (Hv : verdict (self w) (guardedBytes ev w) = None).
  { apply verdict_within; [exact Hg | ].
    destruct Hok as [Hu | (l & Hl & Hle)]; [left; exact Hu | right].
    exists l. split; [exact Hl | lia]. }
  destruct (step_form_some ev w f Hc Hf) as (f' & Hf' & Ho & _).
  simpl. rewrite <- Ho. apply IH.
  - apply step_consumed, Hc.
  - exact Hf'.
  - rewrite Ho. apply (step_not_rejected ev w f); assumption.
  - exact Hevs.
  - rewrite (step_upperLimit ev w Hc), step_processedBytes.
    destruct Hok as [Hu | (l & Hl & Hle)]; [left; exact Hu | right].
    exists l. split; [exact Hl | ]. destruct (unlimited _); lia.
Qed.

(** *** Parts *)

Lemma step_parts_accounted ev w :
  (length (tasks w) = length (List.filter isHandlerCall (log w))
                      + length (List.filter isPartResume (log w))
   ∧ length (List.filter hasTracker (tasks w))
     = length (List.filter isHandlerCall (log w)))%nat →
  (length (tasks (step ev w)) = length (List.filter isHandlerCall (log (step ev w)))
                                + length (List.filter isPartResume (log (step ev w)))
   ∧ length (List.filter hasTracker (tasks (step ev w)))
     = length (List.filter isHandlerCall (log (step ev w))))%nat.
Proof.
  intros [Hall Htr].
  destruct ev; unfold step; unfold_m; simpl in *; case_all;
    rewrite ?List.filter_app, ?length_app, ?length_alter; simpl;
    count_tasks (@hasTracker H0); unfold hasTracker in *; simpl in *; lia.
Qed.


(** X10. When the awaited handler call returns, a truthy value is reported
    to the tracker as the success payload and a falsy one is not reported at
    all; in both cases the file the tracker holds, if any, is appended under
    its field name, the pending-handler counter is decremented and no
    promise changes. *)
Theorem handler_return_recorded (w : World) (task : nat) (t : Task)
    (tracker : PartHandler) (response : option Response) :
  tasks w !! task = Some t → partHandler t = Some tracker → phase t = AwaitHandler →
  let told := match response with
              | Some value => reportSuccess value tracker
              | None => tracker
              end in
  step (HandlerSettles task (Returned response)) w
  = {| self := set_pendingHandlers (pendingHandlers (self w) - 1)
                 (match getFile told with
                  | Some file =>
                      set_files (FormFields.add (fieldName file) file (files (self w)))
                        (self w)
                  | None => self w
                  end);
       promises := promises w;
       tasks := alter (λ t, {| task_part := task_part t;
                               partHandler := Some told;
                               phase := AwaitHandlePart |}) task (tasks w);
       log := log w |}.
Proof.
  intros Ht Htr Hph told. subst told. unfold step. rewrite Ht.
  destruct t as [part ph phs]. simpl in Htr, Hph. subst ph phs.
  unfold_m. simpl. destruct response as [value | ]; simpl.
  - destruct (getFile (reportSuccess value tracker)); reflexivity.
  - destruct (getFile tracker); reflexivity.
Qed.


(** *** The two triggers as equations *)

Lemma settles_step w task part tracker outcome :
  tasks w !! task = Some {| task_part := part; partHandler := Some tracker;
                            phase := AwaitHandler |} →
  step (HandlerSettles task outcome) w
  = {| self := set_pendingHandlers (pendingHandlers (self w) - 1)
                 (match getFile (match outcome with
                                 | Returned (Some response) => reportSuccess response tracker
                                 | Returned None => tracker
                                 | Threw error => reportError error tracker
                                 end) with
                  | Some file =>
                      set_files (FormFields.add (fieldName file) file (files (self w)))
                        (self w)
                  | None => self w
                  end);
       promises := promises w;
       tasks := alter (λ t, {| task_part := task_part t;
                               partHandler := Some (match outcome with
                                 | Returned (Some response) => reportSuccess response tracker
                                 | Returned None => tracker
                                 | Threw error => reportError error tracker
                                 end);
                               phase := AwaitHandlePart |}) task (tasks w);
       log := log w |}.
Proof.
  intros Ht. unfold step. rewrite Ht. unfold_m. simpl.
  destruct (getFile _); reflexivity.
Qed.

Lemma close_step w f :
  form (self w) = Some f →
  step DecoderClose w
  = if completed w
    then {| self := set_request (published (self w)) (self w);
            promises := settle (outer f) Resolved (promises w);
            tasks := tasks w;
            log := log w ++ [SetInitialBody (FormFields.get (fields (self w)))] |}
    else w.
Proof.
  intros Hf. unfold step, completed. rewrite Hf. unfold_m. simpl. rewrite Hf. simpl.
  destruct ((flushing f <=? 0) && (pendingHandlers (self w) <=? 0)); simpl;
    rewrite ?Hf; reflexivity.
Qed.

Lemma resume_step w f task part tracker :
  form (self w) = Some f →
  tasks w !! task = Some {| task_part := part; partHandler := tracker;
                            phase := AwaitHandlePart |} →
  step (ListenerResumes task) w
  = {| self := if completed w then set_request (published (self w)) (self w) else self w;
       promises := if completed w then settle (outer f) Resolved (promises w)
                   else promises w;
       tasks := alter (λ t, {| task_part := task_part t; partHandler := partHandler t;
                               phase := Finished |}) task (tasks w);
       log := if completed w
              then log w ++ [SetInitialBody (FormFields.get (fields (self w)))]
              else log w |}.
Proof.
  intros Hf Ht. unfold step, completed. rewrite Ht, Hf. unfold_m. simpl. rewrite Hf. simpl.
  destruct ((flushing f <=? 0) && (pendingHandlers (self w) <=? 0)); simpl;
    rewrite ?Hf; reflexivity.
Qed.

Lemma cleanups_published w l body :
  log w = l ++ [SetInitialBody body] → cleanups w = S (length (List.filter isCleanup l)).
Proof. intros Hl. rewrite (cleanups_snoc w _ _ Hl). simpl. lia. Qed.

(** X11. Completion does not depend on which trigger comes last. With one
    handler call awaited: if the backlog is already empty, the close
    notification changes nothing, and once the handler settles the resumed
    part listener aggregates and resolves; if the backlog is not empty, the
    resumed part listener changes no promise, and once the backlog is empty
    the close notification aggregates and resolves. Either way [cleanup]
    runs once and publishes what was accumulated when the handler settled. *)
Theorem completion_in_either_order (w : World) (f : Form) (task : nat) (t : Task)
    (tracker : PartHandler) (outcome : HandlerOutcome) (backlog : Z) :
  form (self w) = Some f → promises w !! outer f = Some Pending →
  pendingHandlers (self w) = 1 →
  tasks w !! task = Some t → partHandler t = Some tracker → phase t = AwaitHandler →
  backlog ≤ 0 →
  let settled := step (HandlerSettles task outcome) w in
  (flushing f ≤ 0 →
     step DecoderClose w = w
     ∧ let w' := step (ListenerResumes task) settled in
       promises w' !! outer f = Some Resolved
       ∧ cleanups w' = S (cleanups w)
       ∧ request (self w') = published (self settled))
  ∧ (0 < flushing f →
     let resumed := step (ListenerResumes task) settled in
     promises resumed = promises w
     ∧ cleanups resumed = cleanups w
     ∧ request (self resumed) = request (self w)
     ∧ let w' := step DecoderClose (step (DecoderFlushing backlog) resumed) in
       promises w' !! outer f = Some Resolved
       ∧ cleanups w' = S (cleanups w)
       ∧ request (self w') = published (self settled)).
Proof.
  intros Hf Hp Hpend Ht Htr Hph Hback settled.
  destruct t as [part ph phs]. simpl in Htr, Hph. subst ph phs.
  pose proof (settles_step w task part tracker outcome Ht) as Hs. fold settled in Hs.
  set (told := match outcome with
               | Returned (Some response) => reportSuccess response tracker
               | Returned None => tracker
               | Threw error => reportError error tracker
               end) in *.
  assert (Hfs : form (self settled) = Some f).
  { rewrite Hs. simpl. destruct (getFile told); exact Hf. }
  assert (Hps : pendingHandlers (self settled) = 0).
  { rewrite Hs. simpl. lia. }
  assert (Hts : tasks settled !! task
                = Some {| task_part := part; partHandler := Some told;
                          phase := AwaitHandlePart |}).
  { rewrite Hs. simpl. rewrite list_lookup_alter_eq, Ht. reflexivity. }
  assert (Hpr : promises settled = promises w) by (rewrite Hs; reflexivity).
  assert (Hlg : log settled = log w) by (rewrite Hs; reflexivity).
  assert (Hrq : request (self settled) = request (self w)).
  { rewrite Hs. simpl. destruct (getFile told); reflexivity. }
  pose proof (resume_step settled f task part (Some told) Hfs Hts) as Hr.
  split.
  - intros Hfl.
    split.
    { rewrite (close_step w f Hf). unfold completed. rewrite Hf, Hpend.
      rewrite andb_false_r. reflexivity. }
    cbv zeta.
    assert (Hdone : completed settled = true).
    { unfold completed. rewrite Hfs, Hps. apply andb_true_intro.
      split; apply Z.leb_le; lia. }
    rewrite Hdone in Hr. rewrite Hr. simpl.
    split; [rewrite Hpr; apply settle_pending, Hp | ].
    split; [ | reflexivity].
    erewrite cleanups_published by reflexivity. rewrite Hlg. reflexivity.
  - intros Hfl. cbv zeta.
    assert (Hnot : completed settled = false).
    { unfold completed. rewrite Hfs. apply andb_false_intro1, Z.leb_gt. lia. }
    rewrite Hnot in Hr. rewrite Hr.
    split; [exact Hpr | ].
    split; [unfold cleanups; simpl; rewrite Hlg; reflexivity | ].
    split; [exact Hrq | ].
    assert (Hflush : ∀ ts, step (DecoderFlushing backlog)
                             {| self := self settled; promises := promises settled;
                                tasks := ts; log := log settled |}
                     = {| self := set_form (Some (set_flushing backlog f)) (self settled);
                          promises := promises settled; tasks := ts;
                          log := log settled |}).
    { intros ts. unfold step. simpl. rewrite Hfs. reflexivity. }
    rewrite Hflush.
    rewrite (close_step _ (set_flushing backlog f)) by reflexivity.
    assert (Hdone : ∀ ts, completed {| self := set_form (Some (set_flushing backlog f))
                                                (self settled);
                                       promises := promises settled; tasks := ts;
                                       log := log settled |} = true).
    { intros ts. unfold completed. simpl. rewrite Hps. apply andb_true_intro.
      split; apply Z.leb_le; lia. }
    rewrite Hdone. simpl.
    split; [rewrite Hpr; apply settle_pending, Hp | ].
    split; [ | reflexivity].
    erewrite cleanups_published by reflexivity. rewrite Hlg. reflexivity.
Qed.

(** *** One parse per instance *)

Lemma step_single_parse ev w :
  (if consumed (self w)
   then ∃ f, form (self w) = Some f ∧ (outer f < length (promises w))%nat
             ∧ ∀ p s, promises w !! p = Some s → p ≠ outer f → s = Rejected alreadyConsumed
   else form (self w) = None ∧ promises w = []) →
  (if consumed (self (step ev w))
   then ∃ f, form (self (step ev w)) = Some f
             ∧ (outer f < length (promises (step ev w)))%nat
             ∧ ∀ p s, promises (step ev w) !! p = Some s → p ≠ outer f →
                 s = Rejected alreadyConsumed
   else form (self (step ev w)) = None ∧ promises (step ev w) = []).
Proof.
  intros Hinv.
  assert (Hsettle : ∀ f v, (outer f < length (promises w))%nat →
            (∀ p s, promises w !! p = Some s → p ≠ outer f → s = Rejected alreadyConsumed) →
            (outer f < length (settle (outer f) v (promises w)))%nat
            ∧ ∀ p s, settle (outer f) v (promises w) !! p = Some s → p ≠ outer f →
                s = Rejected alreadyConsumed).
  { intros f v Hlt Hothers. rewrite settle_length. split; [exact Hlt | ].
    intros p s Hs Hne. apply (Hothers p); [ | exact Hne].
    revert Hs. unfold settle. destruct (promises w !! outer f) as [[ | | e] | ]; try tauto.
    rewrite list_lookup_insert_ne by congruence. tauto. }
  destruct (consumed (self w)) eqn:Hc.
  - destruct Hinv as (f & Hf & Hlt & Hothers).
    assert (Hsame : consumed (self (step ev w)) = true) by (apply step_consumed, Hc).
    rewrite Hsame. clear Hsame.
    destruct ev; unfold step; unfold_m; simpl in *; rewrite ?Hc, ?Hf; simpl;
      case_all; simplify_eq; simpl; rewrite ?Hf;
      try (eexists; split; [reflexivity | ]; simpl; split; [exact Hlt | exact Hothers]);
      try (eexists; split; [reflexivity | ]; simpl; apply (Hsettle f); assumption);
      try (exists f; split; [eassumption | ]; first [apply (Hsettle f); assumption
                                                    | split; [exact Hlt | exact Hothers]]).
    exists f. split; [reflexivity | ]. rewrite settle_fresh, length_app. simpl.
    split; [lia | ]. intros p s Hs Hne.
    destruct (decide (p < length (promises w))%nat) as [Hp | Hp].
    + rewrite lookup_app_l in Hs by exact Hp. eapply Hothers; eassumption.
    + rewrite lookup_app_r in Hs by lia.
      destruct (p - length (promises w))%nat; simpl in Hs; [ | discriminate].
      injection Hs as <-. reflexivity.
  - destruct Hinv as [Hf Hps].
    destruct ev; unfold step; unfold_m; simpl in *; rewrite ?Hc, ?Hf; simpl; rewrite ?Hc;
      case_all; simpl; rewrite ?Hc, ?Hf; auto.
    exists {| form_maxFields := maxFields (assign (config (self w)) cfg); flushing := 0;
              outer := length (promises w) |}.
    split; [reflexivity | ]. simpl. rewrite Hps. simpl. split; [lia | ].
    intros [ | p] s Hs Hne; [contradiction | discriminate].
Qed.

(** X14. An instance parses once. On every world reached from a new
    instance: before [process] is called there is no decoder and no promise;
    afterwards the decoder exists, its listeners settle the promise of the
    first call, and every other promise, one per further [process] call,
    is rejected with the already-consumed exception. *)
Theorem one_parse_per_instance (cfg : Config) (evs : list Event) :
  let w := run evs (construct cfg) in
  if consumed (self w)
  then ∃ f, form (self w) = Some f ∧ outer f = 0%nat ∧ (0 < length (promises w))%nat
            ∧ ∀ p s, promises w !! p = Some s → p ≠ 0%nat → s = Rejected alreadyConsumed
  else form (self w) = None ∧ promises w = [].
Proof.
  intros w. subst w.
  apply (run_invariant (λ w,
    if consumed (self w)
    then ∃ f, form (self w) = Some f ∧ outer f = 0%nat ∧ (0 < length (promises w))%nat
              ∧ ∀ p s, promises w !! p = Some s → p ≠ 0%nat → s = Rejected alreadyConsumed
    else form (self w) = None ∧ promises w = [])).
  - intros ev w Hinv.
    assert (Hweak : if consumed (self w)
                    then ∃ f, form (self w) = Some f ∧ (outer f < length (promises w))%nat
                         ∧ ∀ p s, promises w !! p = Some s → p ≠ outer f →
                             s = Rejected alreadyConsumed
                    else form (self w) = None ∧ promises w = []).
    { destruct (consumed (self w)); [ | exact Hinv].
      destruct Hinv as (f & Hf & Ho & Hlt & Hothers).
      exists f. rewrite Ho. auto. }
    pose proof (step_single_parse ev w Hweak) as Hnext.
    destruct (consumed (self (step ev w))) eqn:Hc'; [ | exact Hnext].
    destruct Hnext as (f' & Hf' & Hlt' & Hothers').
    assert (Ho' : outer f' = 0%nat).
    { destruct (consumed (self w)) eqn:Hc.
      - destruct Hinv as (f & Hf & Ho & _).
        destruct (step_form_some ev w f Hc Hf) as (g & Hg & Hog & _). congruence.
      - destruct Hinv as [Hf Hps].
        pose proof (step_consumed_by_process ev w Hc Hc') as Hev.
        destruct ev; try discriminate.
        revert Hf'. unfold step. unfold_m. simpl. rewrite Hc. simpl. rewrite Hps.
        intros [= <-]. reflexivity. }
    exists f'. rewrite Ho' in *. repeat split; try assumption; lia.
  - simpl. split; reflexivity.
Qed.

End Properties.

(** * The model on concrete runs *)

(** C1, the claim as stated fails: with two handlers that settle in the same
    turn after the decoder closed, both part listeners find the completion
    predicate true and [cleanup] runs twice within one [process] call; the
    promise is resolved by the first. *)
Lemma aggregation_runs_twice :
  let w := run settleTogether (construct noConfig) in
  promises w = [Resolved] ∧ cleanups w = 2%nat ∧ cleanups w ≠ 1%nat.
Proof. vm_compute. repeat split. discriminate. Qed.

(** The scenario of a close notification arriving after a part listener
    already resolved: the notification aggregates once more. *)
Example close_after_resolution_aggregates_again :
  let w := run resumedWhenFlushed (construct noConfig) in
  promises w = [Resolved] ∧ cleanups w = 1%nat
  ∧ promises (step DecoderClose w) = [Resolved]
  ∧ cleanups (step DecoderClose w) = 2%nat.
Proof. vm_compute. repeat split. Qed.

(** C1 at the close notification that follows a resolving part listener. *)
Lemma aggregation_at_each_satisfaction_witness :
  let w := run resumedWhenFlushed (construct noConfig) in
  let f := {| form_maxFields := None; flushing := 0; outer := 0 |} in
  form (self w) = Some f ∧ isTrigger w DecoderClose = true
  ∧ cleanups (step DecoderClose w) = S (cleanups w)
  ∧ promises (step DecoderClose w) = promises w.
Proof.
  intros w f.
  assert (Hf : form (self w) = Some f) by reflexivity.
  assert (Ht : isTrigger w DecoderClose = true) by reflexivity.
  pose proof (aggregation_at_each_satisfaction w f DecoderClose [] Hf Ht) as Hthm.
  cbv zeta in Hthm. destruct Hthm as [Hthm _].
  change (completed w) with true in Hthm. cbv iota in Hthm.
  destruct Hthm as (_ & Hcount & _ & _ & Hnoop).
  split; [exact Hf | ]. split; [exact Ht | ]. split; [exact Hcount | ].
  apply (Hnoop Resolved); [reflexivity | discriminate].
Defined.

(** C2, the claim as stated fails: with no ceiling configured the counter
    does not accumulate; five bytes of field data went by and it reads 0. *)
Lemma counter_idle_without_limit :
  let w0 := step (CallProcess None) (construct noConfig) in
  let evs := [DecoderField "note" (JsString "hello")] in
  FormFields.values "note" (fields (self (run evs w0))) = ["hello"]
  ∧ processedBytes (self (run evs w0)) = 0
  ∧ processedBytes (self (run evs w0)) ≠ 5.
Proof. vm_compute. repeat split. discriminate. Qed.

(** C2 under a ceiling of ten bytes: five and ten bytes of field values. *)
Lemma processed_bytes_accounting_witness :
  let w := step (CallProcess (Some tenBytes)) (construct noConfig) in
  let evs := [DecoderField "note" (JsString "hello");
              DecoderField "note2" (JsString "worldworld")] in
  consumed (self w) = true
  ∧ processedBytes (self (run evs w)) = 15
  ∧ verdict (self (run [DecoderField "note" (JsString "hello")] w)) 10 = Some entityTooLarge.
Proof.
  intros w evs.
  assert (Hc : consumed (self w) = true) by reflexivity.
  split; [exact Hc | ].
  destruct (processed_bytes_accounting evs w (DecoderField "note" (JsString "hello")) 5 Hc)
    as (_ & _ & Hrun & _).
  split; [rewrite Hrun; reflexivity | reflexivity].
Defined.



(** C4, the code at the failing input: the 'error' listener compares the
    message with the literal for a cap of one, so with a cap of two the
    decoder's too-many-fields error is passed on as it is and the dedicated
    exception is produced for a cap of one only. *)
Theorem max_fields_translated_for_cap_one_only :
  promises (run thirdFieldOverCap (construct noConfig)) = [Rejected (tooManyFields 2)]
  ∧ Rejected (tooManyFields 2) ≠ Rejected maxFieldsExceeded
  ∧ surfaced (tooManyFields 2) = tooManyFields 2
  ∧ promises (run secondFieldOverCap (construct noConfig)) = [Rejected maxFieldsExceeded].
Proof. vm_compute. repeat split. discriminate. Qed.


(** C6 at a handler that rejects after six bytes of its part. *)
Lemma handler_failure_is_local_witness :
  let w := run avatarInFlight (construct noConfig) in
  let boom := Error "upload failed" in
  let w' := step (HandlerSettles 0 (Threw boom)) w in
  phase <$> tasks w !! 0%nat = Some AwaitHandler
  ∧ pendingHandlers (self w) = 1
  ∧ pendingHandlers (self w') = 0
  ∧ promises w' = [Pending]
  ∧ (file_errors <$> FormFields.values "avatar" (files (self w'))) = [[boom]].
Proof.
  intros w boom w'.
  pose (tracker := {| tracked := filePart "avatar"; received := 6; reported := true;
                      outcome_status := StatusPending; outcome_errors := [] |}).
  pose (t := {| task_part := filePart "avatar"; partHandler := Some tracker;
                phase := AwaitHandler |} : Task).
  assert (Ht : tasks w !! 0%nat = Some t) by reflexivity.
  assert (Htr : partHandler t = Some tracker) by reflexivity.
  assert (Hph : phase t = AwaitHandler) by reflexivity.
  destruct (handler_failure_is_local w 0%nat t tracker boom Ht Htr Hph) as (Hw' & _).
  fold w' in Hw'. rewrite Hw'.
  repeat split.
Defined.

(** C7 at a second call that brings a configuration of its own. *)
Lemma second_process_rejected_witness :
  let evs : list Event := [CallOnFile "a" noOptions 1%nat] in
  let w := run evs (step (CallProcess None) (construct noConfig)) in
  promises w = [Pending]
  ∧ promises (step (CallProcess (Some tenBytes)) w) = [Pending; Rejected alreadyConsumed]
  ∧ self (step (CallProcess (Some tenBytes)) w) = self w.
Proof.
  intros evs w.
  destruct (second_process_rejected (construct noConfig) None (Some tenBytes) evs)
    as (_ & Hstep & _).
  fold w in Hstep. rewrite Hstep. repeat split.
Defined.

(** C8 at the fields [note=hello] and [note2=worldworld] under a ceiling of
    ten bytes, and at a field whose value is [undefined]. *)
Lemma field_arrival_witness :
  let w := step (CallProcess (Some tenBytes)) (construct noConfig) in
  let f := {| form_maxFields := None; flushing := 0; outer := 0 |} in
  let w1 := step (DecoderField "note" (JsString "hello")) w in
  let w2 := step (DecoderField "note2" (JsString "worldworld")) w1 in
  form (self w) = Some f
  ∧ FormFields.values "note" (fields (self w1)) = ["hello"]
  ∧ promises w1 = [Pending]
  ∧ fields (self w2) = fields (self w1)
  ∧ promises w2 = [Rejected entityTooLarge]
  ∧ promises (step (DecoderField "note3" JsUndefined) w)
    = [Rejected (TypeError "Cannot read properties of undefined (reading 'length')")].
Proof.
  intros w f w1 w2.
  assert (Hf : form (self w) = Some f) by reflexivity.
  assert (Hf1 : form (self w1) = Some f) by reflexivity.
  split; [exact Hf | ].
  destruct (field_arrival w f "note" (JsString "hello") Hf) as (_ & Hok & _).
  specialize (Hok ltac:(discriminate) "hello" eq_refl). cbv zeta in Hok.
  change (verdict (self w) (Z.of_nat (String.length "hello"))) with (@None JsError) in Hok.
  cbv iota in Hok. destruct Hok as (_ & Hvalues).
  split; [exact Hvalues | ]. split; [reflexivity | ].
  destruct (field_arrival w1 f "note2" (JsString "worldworld") Hf1) as (_ & Hover & _).
  specialize (Hover ltac:(discriminate) "worldworld" eq_refl). cbv zeta in Hover.
  change (verdict (self w1) (Z.of_nat (String.length "worldworld")))
    with (Some entityTooLarge) in Hover.
  cbv iota in Hover. destruct Hover as (_ & Hw2 & Hkept).
  split; [exact Hkept | ]. split; [fold w2 in Hw2; rewrite Hw2; reflexivity | ].
  destruct (field_arrival w f "note3" JsUndefined Hf) as (_ & _ & Hthrow & _).
  destruct (Hthrow (TypeError "Cannot read properties of undefined (reading 'length')") w
              eq_refl) as (_ & Hps).
  rewrite Hps. reflexivity.
Defined.

(** C9 at a size string the parser returns [null] for. *)
Lemma zero_or_unparsable_limit_disables_guard_witness :
  let cfg := {| maxFields := None; limit := Some (SizeString "plenty") |} in
  let evs := [DecoderField "note" (JsString "hello");
              DecoderField "note2" (JsString "worldworld")] in
  let w1 := run evs (step (CallProcess (Some cfg)) (construct noConfig)) in
  bytes "plenty" = None
  ∧ processedBytes (self w1) = 0
  ∧ promises w1 = [Pending]
  ∧ forgetLimit w1 = run evs (step (CallProcess (Some noConfig)) (construct noConfig)).
Proof.
  intros cfg evs w1.
  assert (Hb : bytes "plenty" = None) by reflexivity.
  split; [exact Hb | ].
  destruct (zero_or_unparsable_limit_disables_guard (construct noConfig) cfg evs eq_refl
              (or_intror (ex_intro _ "plenty" (conj eq_refl Hb))))
    as (_ & Hcount & _ & Hsame).
  split; [exact Hcount | ]. split; [reflexivity | ]. exact Hsame.
Defined.

(** C10 at an instance with one handler registered and no [process] call. *)
Lemma abort_before_process_throws_witness :
  let evs : list Event := [CallOnFile "a" noOptions 1%nat] in
  let w := run evs (construct noConfig) in
  forallb (λ ev, negb (isCallProcess ev)) evs = true
  ∧ abort (Error "stop") w = (inl (TypeError "Cannot read properties of undefined"), w)
  ∧ promises (step (CallAbort (Error "stop")) (step (CallProcess None) w))
    = [Rejected (Error "stop")].
Proof.
  intros evs w.
  assert (Hevs : forallb (λ ev, negb (isCallProcess ev)) evs = true) by reflexivity.
  split; [exact Hevs | ].
  destruct (abort_before_process_throws noConfig evs (Error "stop") Hevs)
    as (Hthrows & _ & _ & Hafter).
  split; [exact Hthrows | ].
  pose proof (Hafter None []) as Hstarted. cbv zeta in Hstarted.
  change (run [] (step (CallProcess None) (run evs (construct noConfig))))
    with (step (CallProcess None) w) in Hstarted.
  destruct Hstarted as (f & Hf & Habort).
  assert (Hform : form (self (step (CallProcess None) w))
                  = Some {| form_maxFields := None; flushing := 0; outer := 0 |})
    by reflexivity.
  rewrite Hform in Hf. injection Hf as <-.
  unfold step at 1. unfold exec. rewrite Habort. reflexivity.
Defined.

(** * Further properties on concrete runs *)


(** X2 at the name [files[0][1]]. *)
Lemma getHandlerName_removes_first_index_only_witness :
  noBracket "files" = true ∧ digits "0" = true
  ∧ getHandlerName "files[0][1]" = "files[1]"
  ∧ getHandlerName "files" = "files".
Proof.
  assert (Hpre : noBracket "files" = true) by reflexivity.
  assert (Hds : digits "0" = true) by reflexivity.
  destruct (getHandlerName_removes_first_index_only "files" "0" "[1]" "user[name]" Hpre Hds)
    as (Hfirst & Hsame & _).
  split; [exact Hpre | ]. split; [exact Hds | ]. split; [exact Hfirst | exact Hsame].
Defined.

(** X4 at the part listener that resumes with nothing left to flush. *)
Lemma resolves_only_when_nothing_is_pending_witness :
  let w := run settledWhenFlushed (construct noConfig) in
  promises w !! 0%nat = Some Pending
  ∧ promises (step (ListenerResumes 0) w) !! 0%nat = Some Resolved
  ∧ awaiting (tasks w) = 0%nat.
Proof.
  intros w.
  assert (Hp : promises w !! 0%nat = Some Pending) by reflexivity.
  assert (Hr : promises (step (ListenerResumes 0) w) !! 0%nat = Some Resolved) by reflexivity.
  destruct (resolves_only_when_nothing_is_pending noConfig settledWhenFlushed
              (ListenerResumes 0) 0%nat Hp Hr) as (_ & Hnone & _).
  split; [exact Hp | ]. split; [exact Hr | exact Hnone].
Defined.

(** X5 at a decoder error followed by a close notification and an abort. *)
Lemma decoder_error_rejects_for_good_witness :
  let w := step (CallProcess None) (construct noConfig) in
  let f := {| form_maxFields := None; flushing := 0; outer := 0 |} in
  form (self w) = Some f ∧ promises w !! 0%nat = Some Pending
  ∧ promises (run [DecoderClose; CallAbort (Error "late")]
                (step (DecoderError (Error "bad boundary")) w)) !! 0%nat
    = Some (Rejected (Error "bad boundary")).
Proof.
  intros w f.
  assert (Hf : form (self w) = Some f) by reflexivity.
  assert (Hp : promises w !! outer f = Some Pending) by reflexivity.
  destruct (decoder_error_rejects_for_good w f (Error "bad boundary")
              [DecoderClose; CallAbort (Error "late")] Hf Hp) as (_ & _ & Hlater).
  split; [exact Hf | ]. split; [exact Hp | exact Hlater].
Defined.


(** X7 after eleven bytes under a ceiling of ten. *)
Lemma guard_keeps_failing_witness :
  let w := run avatarOverLimit (construct noConfig) in
  let w' := run [DecoderField "late" (JsString "x")] w in
  consumed (self w) = true ∧ upperLimit (self w) = Some 10
  ∧ processedBytes (self w) = 11
  ∧ verdict (self w') 0 = Some entityTooLarge
  ∧ fields (self (step (DecoderField "later" (JsString "y")) w')) = fields (self w').
Proof.
  intros w w'.
  assert (Hc : consumed (self w) = true) by reflexivity.
  assert (Hl : upperLimit (self w) = Some 10) by reflexivity.
  assert (Hp : processedBytes (self w) = 11) by reflexivity.
  assert (Hlt : 10 < processedBytes (self w)) by (rewrite Hp; reflexivity).
  assert (Hne : 10 ≠ 0) by discriminate.
  destruct (guard_keeps_failing w 10 [DecoderField "late" (JsString "x")] Hc Hl Hne Hlt)
    as (_ & Hv & Hdrop).
  split; [exact Hc | ]. split; [exact Hl | ]. split; [exact Hp | ].
  split; [apply Hv, Z.le_refl | ]. apply Hdrop.
Defined.

(** X8 at two fields of five bytes under a ceiling of ten. *)
Lemma within_limit_never_rejected_witness :
  let w := step (CallProcess (Some tenBytes)) (construct noConfig) in
  let f := {| form_maxFields := None; flushing := 0; outer := 0 |} in
  let evs := [DecoderField "note" (JsString "hello");
              DecoderField "more" (JsString "world")] in
  processedBytes (self w) + totalGuarded evs w = 10
  ∧ (promises (run evs w) !! 0%nat = Some Pending
     ∨ promises (run evs w) !! 0%nat = Some Resolved).
Proof.
  intros w f evs.
  assert (Hsum : processedBytes (self w) + totalGuarded evs w = 10) by reflexivity.
  split; [exact Hsum | ].
  apply (within_limit_never_rejected w f evs); try reflexivity.
  right. exists 10. split; [reflexivity | ]. rewrite Hsum. apply Z.le_refl.
Defined.

(** X10 at a handler that returns a value after six bytes of its part. *)
Lemma handler_return_recorded_witness :
  let w := run avatarInFlight (construct noConfig) in
  let w' := step (HandlerSettles 0 (Returned (Some "stored"))) w in
  pendingHandlers (self w') = 0
  ∧ promises w' = [Pending]
  ∧ (file_status <$> FormFields.values "avatar" (files (self w'))) = [StatusMoved].
Proof.
  intros w w'.
  pose (tracker := {| tracked := filePart "avatar"; received := 6; reported := true;
                      outcome_status := StatusPending; outcome_errors := [] |}).
  pose (t := {| task_part := filePart "avatar"; partHandler := Some tracker;
                phase := AwaitHandler |} : Task).
  assert (Ht : tasks w !! 0%nat = Some t) by reflexivity.
  assert (Htr : partHandler t = Some tracker) by reflexivity.
  assert (Hph : phase t = AwaitHandler) by reflexivity.
  pose proof (handler_return_recorded w 0%nat t tracker (Some "stored") Ht Htr Hph) as Hw'.
  cbv zeta in Hw'. fold w' in Hw'. rewrite Hw'. repeat split.
Defined.

(** X11 at a part whose stream has ended while its handler is busy. *)
Lemma completion_in_either_order_witness :
  let w := run avatarFlushed (construct noConfig) in
  let outcome := Returned (Some "stored") in
  step DecoderClose w = w
  ∧ promises (step (ListenerResumes 0) (step (HandlerSettles 0 outcome) w)) !! 0%nat
    = Some Resolved
  ∧ cleanups (step (ListenerResumes 0) (step (HandlerSettles 0 outcome) w)) = 1%nat.
Proof.
  intros w outcome.
  pose (tracker := {| tracked := filePart "avatar"; received := 6; reported := true;
                      outcome_status := StatusPending; outcome_errors := [] |}).
  pose (t := {| task_part := filePart "avatar"; partHandler := Some tracker;
                phase := AwaitHandler |} : Task).
  pose (f := {| form_maxFields := None; flushing := 0; outer := 0 |} : Form).
  assert (Hf : form (self w) = Some f) by reflexivity.
  assert (Hp : promises w !! outer f = Some Pending) by reflexivity.
  assert (Hpend : pendingHandlers (self w) = 1) by reflexivity.
  assert (Ht : tasks w !! 0%nat = Some t) by reflexivity.
  assert (Htr : partHandler t = Some tracker) by reflexivity.
  assert (Hph : phase t = AwaitHandler) by reflexivity.
  destruct (completion_in_either_order w f 0%nat t tracker outcome 0
              Hf Hp Hpend Ht Htr Hph (Z.le_refl 0)) as [Hclosed _].
  destruct (Hclosed (Z.le_refl 0)) as (Hnothing & Hres & Hcount & _).
  split; [exact Hnothing | ]. split; [exact Hres | exact Hcount].
Defined.

(** X12 at a run that ends in a decoder error. *)
Lemma request_written_at_completion_only_witness :
  satisfactions thirdFieldOverCap (construct noConfig) = 0%nat
  ∧ request (self (run thirdFieldOverCap (construct noConfig)))
    = {| raw_files := None; initialBody := None |}.
Proof.
  assert (Hnone : satisfactions thirdFieldOverCap (construct noConfig) = 0%nat) by reflexivity.
  split; [exact Hnone | ].
  destruct (request_written_at_completion_only (construct noConfig) DecoderClose
              thirdFieldOverCap) as [_ Hrun].
  exact (Hrun Hnone).
Defined.

